(** * Cribbage rules engine of [src/pages/index.js]: a shallow embedding

    The JavaScript engine (scoring of hands, the pegging step [applyPlay],
    one playout of the Monte Carlo pegging search, score accumulation and the
    discard commit of the game hook) is transcribed into Gallina functions and
    the statements of the specification are settled against them.

    Conventions.
    - A JavaScript number that only ever holds an integer is a [Z].
    - A card object is a [card]: its two fields [r] and [s] together with the
      identity [oid] of the object.  Leibniz equality of [card] is therefore
      JavaScript's [===] on card objects, while [cardsEqual] compares the two
      fields only.
    - An object used as a dictionary keyed by ranks is a [gmap Z Z].
    - [null]/[undefined] is [None]. *)

From Stdlib Require Import ZArith List Bool Lia Permutation Sorted.
From stdpp Require Import base decidable option list sorting gmap fin_maps.
From stdpp Require Import strings pretty.
Import ListNotations.
Local Open Scope Z_scope.

(** ** Utilities and types *)

Inductive suit := Clubs | Diamonds | Hearts | Spades.

#[global] Instance suit_eq_dec : EqDecision suit.
Proof. solve_decision. Defined.

Record card := Card { oid : nat; r : Z; s : suit }.

#[global] Instance card_eq_dec : EqDecision card.
Proof. solve_decision. Defined.

Inductive player := P | AI.

#[global] Instance player_eq_dec : EqDecision player.
Proof. solve_decision. Defined.

Definition SUITS : list suit := [Clubs; Diamonds; Hearts; Spades].
Definition RANKS : list Z := [1;2;3;4;5;6;7;8;9;10;11;12;13].

(** [cardValue15 = (r) => (r > 10 ? 10 : r)] *)
Definition cardValue15 (rk : Z) : Z := if 10 <? rk then 10 else rk.

(** [makeDeck]: suits outermost, ranks innermost; every call allocates fresh
    objects, whose identities are numbered from [base] here. *)
Definition makeDeck (base : nat) : list card :=
  imap (fun i '(su, rk) => Card (base + i) rk su)
       (su ← SUITS; (fun rk => (su, rk)) <$> RANKS).

(** ** Combinatorics and scoring *)

(** [1 << n] on 32-bit integers: the shift count is taken modulo 32 and the
    result is read as a signed 32-bit value. *)
Definition shl1 (n : Z) : Z :=
  let v := 2 ^ (n mod 32) in
  if 2 ^ 31 <=? v then v - 2 ^ 32 else v.

(** The inner loop of [combos]: the elements [arr[i]] with
    [mask & (1 << i)] non-zero, in index order. *)
Fixpoint pick (mask : Z) (i : Z) (arr : list card) : list card :=
  match arr with
  | [] => []
  | c :: arr' =>
      if Z.land mask (shl1 i) =? 0 then pick mask (i + 1) arr'
      else c :: pick mask (i + 1) arr'
  end.

(** [combos]: one subset per [mask] in [1 .. (1 << n) - 1]. *)
Definition combos (arr : list card) : list (list card) :=
  let n := Z.of_nat (length arr) in
  (fun k => pick (Z.of_nat k) 0 arr) <$> seq 1 (Z.to_nat (shl1 n - 1)).

Definition count15 (cards : list card) : Z :=
  foldl (fun pts subset =>
           let sum := foldl (fun a c => a + cardValue15 (r c)) 0 subset in
           if sum =? 15 then pts + 2 else pts)
        0 (combos cards).

(** The dictionary built by [for (const c of cards) m[c.r] = (m[c.r] || 0) + 1]. *)
Definition byRank (cards : list card) : gmap Z Z :=
  foldl (fun m c => <[r c := default 0 (m !! r c) + 1]> m) ∅ cards.

Definition countPairs (cards : list card) : Z :=
  let ranks := byRank cards in
  map_fold (fun _ n pts => if 2 <=? n then pts + n * (n - 1) / 2 * 2 else pts)
           0 ranks.

(** The inner [while] of [countRuns], started at index [i] holding [prev]:
    the ranks at indices [i+1 .. j] and the part of the array after [j]. *)
Fixpoint runSpan (prev : Z) (l : list Z) : list Z * list Z :=
  match l with
  | x :: l' =>
      if x =? prev + 1
      then let '(run, rest) := runSpan x l' in (x :: run, rest)
      else ([], l)
  | [] => ([], [])
  end.

(** The outer [while (i < unique.length)] of [countRuns]; [unique] is the part
    of the array from index [i] on. *)
Fixpoint countRunsLoop (fuel : nat) (m : gmap Z Z) (unique : list Z)
    (bestLen total : Z) : option Z :=
  match fuel with
  | O => None
  | S fuel' =>
      match unique with
      | [] => Some total
      | x :: l =>
          let '(run, rest) := runSpan x l in
          let runLen := Z.of_nat (length (x :: run)) in
          if 3 <=? runLen then
            let mult := foldl (fun acc rk => acc * default 0 (m !! rk)) 1 (x :: run) in
            if bestLen <? runLen
            then countRunsLoop fuel' m rest runLen (runLen * mult)
            else if runLen =? bestLen
                 then countRunsLoop fuel' m rest bestLen (total + runLen * mult)
                 else countRunsLoop fuel' m rest bestLen total
          else countRunsLoop fuel' m rest bestLen total
      end
  end.

(** [Object.keys(byRank).map(Number).sort((a,b)=>a-b)] *)
Definition uniqueRanks (m : gmap Z Z) : list Z :=
  merge_sort Z.le (fst <$> map_to_list m).

Definition countRuns (cards : list card) : option Z :=
  let m := byRank cards in
  let unique := uniqueRanks m in
  countRunsLoop (S (length unique)) m unique 0 0.

(** [suits.every(s => s === suits[0])], with [suits[0]] undefined on an empty
    hand. *)
Definition allSameSuit (hand : list card) : bool :=
  let suits := s <$> hand in
  forallb (fun su => bool_decide (Some su = head suits)) suits.

Definition flushPoints (hand : list card) (starter : option card) (isCrib : bool) : Z :=
  let suits := s <$> hand in
  if negb (allSameSuit hand) then 0
  else if match starter with
          | Some st => bool_decide (Some (s st) = head suits)
          | None => false
          end then 5
  else if isCrib then 0 else 4.

Definition knobsPoints (hand : list card) (starter : option card) : Z :=
  match starter with
  | None => 0
  | Some st =>
      if existsb (fun c => (r c =? 11) && bool_decide (s c = s st)) hand then 1 else 0
  end.

Definition HOUSE_798 : bool := true.

Definition hull798Bonus (allFive : list card) : Z :=
  if negb HOUSE_798 then 0
  else
    let cnt0 : gmap Z Z := <[7 := 0]> (<[8 := 0]> (<[9 := 0]> ∅)) in
    let cnt := foldl (fun m c => match m !! r c with
                                 | Some n => <[r c := n + 1]> m
                                 | None => m
                                 end) cnt0 allFive in
    3 * (default 0 (cnt !! 7) * default 0 (cnt !! 8) * default 0 (cnt !! 9)).

(** [handPoints]; the only partial component is the fuelled loop of
    [countRuns], shown total in [countRuns_total]. *)
Definition handPoints (hand4 : list card) (starter : card) (isCrib : bool) : option Z :=
  let all := hand4 ++ [starter] in
  runs ← countRuns all;
  Some (count15 all + countPairs all + runs + flushPoints hand4 (Some starter) isCrib
        + knobsPoints hand4 (Some starter) + hull798Bonus all).

(** ** Pegging logic *)

Definition legalPlays (hand : list card) (total : Z) : list card :=
  filter (fun c => total + cardValue15 (r c) <= 31) hand.

(** The [while (k - 1 >= 0 && seq[k-1].r === seq[k].r)] loop of
    [isPairRunPoints], walking backwards from the new card: [back] lists the
    cards before index [k], nearest first, and [rk] is [seq[k].r].  The value
    is the number of iterations. *)
Fixpoint sameBack (rk : Z) (back : list card) : Z :=
  match back with
  | c :: back' => if r c =? rk then 1 + sameBack (r c) back' else 0
  | [] => 0
  end.

(** [for (i = 1; i < ranks.length; i++) if (ranks[i] !== ranks[i-1] + 1) ...] *)
Fixpoint consecutive (ranks : list Z) : bool :=
  match ranks with
  | a :: (b :: _) as ranks' => (b =? a + 1) && consecutive ranks'
  | _ => true
  end.

(** [seq.slice(seq.length - l)] *)
Definition lastn {A} (l : nat) (seq : list A) : list A :=
  drop (length seq - l) seq.

(** [for (let l = ...; l >= 3; l--)] of [isPairRunPoints], from [l] down. *)
Fixpoint runLoop (l : nat) (seq : list card) : Z :=
  match l with
  | O => 0
  | S l' =>
      if (l <? 3)%nat then 0
      else
        let ranks := merge_sort Z.le (r <$> lastn l seq) in
        if consecutive ranks then Z.of_nat l else runLoop l' seq
  end.

Definition pairPoints (same : Z) : Z :=
  if same =? 2 then 2 else if same =? 3 then 6 else if same =? 4 then 12 else 0.

Definition isPairRunPoints (stack : list card) (nextCard : card) : Z :=
  let seq := stack ++ [nextCard] in
  let same := 1 + sameBack (r nextCard) (reverse stack) in
  pairPoints same + runLoop (Nat.min 7 (length seq)) seq.

(** The pegging state object.  [cutStarter] builds it without the fields
    [points] and [thirtyOne]; [applyPlay] adds them. *)
Record PegState := mkPeg {
  stack : list card;
  total : Z;
  pHand : list card;
  aiHand : list card;
  seen : list card;
  starter : option card;
  next : player;
  pPassed : bool;
  aiPassed : bool;
  points : option Z;
  thirtyOne : option bool;
}.

Definition other (who : player) : player :=
  match who with P => AI | AI => P end.

Definition applyPlay (state : PegState) (c : card) (who : player) : PegState :=
  let newTotal := total state + cardValue15 (r c) in
  let points15or31 := (if newTotal =? 15 then 2 else 0) + (if newTotal =? 31 then 2 else 0) in
  let pairRun := isPairRunPoints (stack state) c in
  {| stack := stack state ++ [c];
     total := newTotal;
     pHand := if decide (who = P)
              then filter (fun x => x <> c) (pHand state) else pHand state;
     aiHand := if decide (who = AI)
               then filter (fun x => x <> c) (aiHand state) else aiHand state;
     seen := seen state;
     starter := starter state;
     next := other who;
     pPassed := false;
     aiPassed := false;
     points := Some (points15or31 + pairRun);
     thirtyOne := Some (newTotal =? 31) |}.

(** ** One playout of the Monte Carlo pegging search

    [aiPeggingMove] runs, for a candidate card [play], [sims] playouts; each
    draws [oppSample], the first [state.pHand.length] cards of a shuffle of
    the unseen cards, and then plays the round on deterministically.  The
    shuffle is driven by a floating-point generator, so [oppSample] is the
    input of a playout here. *)

Record Sim := mkSim {
  turn : player;
  simTotal : Z;
  simStack : list card;
  aiRem : list card;
  pOptions : list card;
  aiPts : Z;
  simPPassed : bool;
  simAiPassed : bool;
  lastMover : player;
}.

(** Immediate points of playing [c] on [stk] at running total [tot]. *)
Definition immediatePts (tot : Z) (stk : list card) (c : card) : Z :=
  let t2 := tot + cardValue15 (r c) in
  (if t2 =? 15 then 2 else 0) + (if t2 =? 31 then 2 else 0) + isPairRunPoints stk c.

(** The simulated opponent's choice: [best = null, bestPts = -1], then the
    first card of strictly greatest immediate points. *)
Definition choosePlayP (tot : Z) (stk : list card) (pLegal : list card)
    : option card * Z :=
  foldl (fun '(best, bestPts) c =>
           let pts := immediatePts tot stk c in
           if bestPts <? pts then (Some c, pts) else (best, bestPts))
        (None, -1) pLegal.

(** The simulated AI's choice: ties on points go to the higher new total. *)
Definition choosePlayAI (tot : Z) (stk : list card) (aiLegal : list card)
    : option card * Z * Z :=
  foldl (fun '(best, bestPts, bestTotal) c =>
           let t2 := tot + cardValue15 (r c) in
           let pts := immediatePts tot stk c in
           if (bestPts <? pts) || ((pts =? bestPts) && (bestTotal <? t2))
           then (Some c, pts, t2) else (best, bestPts, bestTotal))
        (None, -1, 0) aiLegal.

(** The [while (true)] loop of a playout; the value is [aiPts] at the
    [break].  [None] is fuel exhaustion (or a [null] choice, which a non-empty
    list of legal cards excludes). *)
Fixpoint rolloutLoop (fuel : nat) (st : Sim) : option Z :=
  match fuel with
  | O => None
  | S fuel' =>
      match turn st with
      | P =>
          let pLegal := legalPlays (pOptions st) (simTotal st) in
          if bool_decide (pLegal = []) then
            if simAiPassed st
            then Some (if decide (lastMover st = AI) then aiPts st + 1 else aiPts st)
            else rolloutLoop fuel'
                   (mkSim AI (simTotal st) (simStack st) (aiRem st) (pOptions st)
                          (aiPts st) true (simAiPassed st) (lastMover st))
          else
            match choosePlayP (simTotal st) (simStack st) pLegal with
            | (None, _) => None
            | (Some playC, bestPts) =>
                let total' := simTotal st + cardValue15 (r playC) in
                let aiPts' := aiPts st - bestPts in
                if total' =? 31 then Some aiPts'
                else rolloutLoop fuel'
                       (mkSim AI total' (simStack st ++ [playC]) (aiRem st)
                              (filter (fun x => x <> playC) (pOptions st))
                              aiPts' false (simAiPassed st) P)
            end
      | AI =>
          let aiLegal := legalPlays (aiRem st) (simTotal st) in
          if bool_decide (aiLegal = []) then
            if simPPassed st
            then Some (if decide (lastMover st = AI) then aiPts st + 1 else aiPts st)
            else rolloutLoop fuel'
                   (mkSim P (simTotal st) (simStack st) (aiRem st) (pOptions st)
                          (aiPts st) (simPPassed st) true (lastMover st))
          else
            match choosePlayAI (simTotal st) (simStack st) aiLegal with
            | (None, _, _) => None
            | (Some play2, bestPts, _) =>
                let total' := simTotal st + cardValue15 (r play2) in
                let aiPts' := aiPts st + bestPts in
                if total' =? 31 then Some aiPts'
                else rolloutLoop fuel'
                       (mkSim P total' (simStack st ++ [play2])
                              (filter (fun x => x <> play2) (aiRem st)) (pOptions st)
                              aiPts' (simPPassed st) false AI)
            end
      end
  end.

(** Iterations that always suffice: each one plays a card or passes, and two
    passes never follow each other without ending the loop. *)
Definition rolloutFuel (aiCards pCards : list card) : nat :=
  2 * (length aiCards + length pCards) + 3.

(** What one playout adds to [totalScore]. *)
Definition rolloutOnce (state : PegState) (play : card) (oppSample : list card)
    : option Z :=
  let total0 := total state + cardValue15 (r play) in
  let aiPts0 := immediatePts (total state) (stack state) play in
  let aiRem0 := filter (fun x => x <> play) (aiHand state) in
  if total0 =? 31 then Some (aiPts0 + 1)
  else rolloutLoop (rolloutFuel aiRem0 oppSample)
         (mkSim P total0 (stack state ++ [play]) aiRem0 oppSample aiPts0
                false false AI).

(** [totalScore] after the playouts on the given samples; [rollout] returns
    it divided by their number. *)
Fixpoint rolloutTotal (state : PegState) (play : card) (samples : list (list card))
    : option Z :=
  match samples with
  | [] => Some 0
  | smp :: samples' =>
      x ← rolloutOnce state play smp;
      rest ← rolloutTotal state play samples';
      Some (x + rest)
  end.

(** ** The game hook

    [useCribbageGame] keeps its state in React state cells.  A handler is a
    closure created by one render: the state variables it mentions ([gameOver],
    [pHand], [dealer], ...) are the constants of that render, the argument
    [env] below.  A setter call does not change them; it queues an update
    that is applied to the pending state, the argument [st], and an updater
    function ([setScores(s => ...)]) receives the pending value.  The next
    render makes the pending state the new constants. *)

Module Hook.

(** The values ["deal"], ["discard"], ["cut"], ["pegging"], ["show"] of [phase]. *)
Inductive phase_t := phaseDeal | phaseDiscard | phaseCut | phasePegging | phaseShow.

Record scores_t := mkScores { sP : Z; sAI : Z }.

Definition get (who : player) (sc : scores_t) : Z :=
  match who with P => sP sc | AI => sAI sc end.

Definition set (who : player) (v : Z) (sc : scores_t) : scores_t :=
  match who with
  | P => mkScores v (sAI sc)
  | AI => mkScores (sP sc) v
  end.

Record state := mkState {
  dealer : player;
  pHand : list card;
  aiHand : list card;
  crib : list card;
  starter : option card;
  phase : phase_t;
  scores : scores_t;
  prevScores : scores_t;
  gameOver : bool;
  winner : option player;
}.

Definition initial (d : player) : state :=
  mkState d [] [] [] None phaseDeal (mkScores 0 0) (mkScores 0 0) false None.

Definition setScoring (sc prev : scores_t) (go : bool) (w : option player)
    (st : state) : state :=
  mkState (dealer st) (pHand st) (aiHand st) (crib st) (starter st) (phase st)
          sc prev go w.

Definition setPhase (ph : phase_t) (st : state) : state :=
  mkState (dealer st) (pHand st) (aiHand st) (crib st) (starter st) ph
          (scores st) (prevScores st) (gameOver st) (winner st).

(** [addScore]: both tests of [gameOver] read the closure's constant. *)
Definition addScore (env : state) (who : player) (delta : Z) (st : state) : state :=
  if (delta <=? 0) || gameOver env then st
  else
    let sc := scores st in
    let nextVal := Z.min 120 (get who sc + delta) in
    let nxt := set who nextVal sc in
    if negb (gameOver env) && (120 <=? nextVal)
    then setScoring nxt sc true (Some who) st
    else setScoring nxt sc (gameOver st) (winner st) st.

(** [endPeggingAndScoreHands], up to the log lines and the delayed redeal
    (which touch neither scores nor the game-over flag).  [None]: the starter
    is [null] and reading its fields throws. *)
Definition endPeggingAndScoreHands (env : state) (finalPeg : PegState)
    (st : state) : option state :=
  let st1 :=
    if (0 <? total finalPeg) && (total finalPeg <? 31)
       && (pPassed finalPeg || aiPassed finalPeg)
    then addScore env (if pPassed finalPeg then AI else P) 1 st
    else st in
  let st2 := setPhase phaseShow st1 in
  let pone := match dealer env with AI => P | P => AI end in
  let poneHand := match pone with P => pHand env | AI => aiHand env end in
  let dealerHand := match dealer env with P => pHand env | AI => aiHand env end in
  strt ← starter env;
  ponePts ← handPoints poneHand strt false;
  dealerPts ← handPoints dealerHand strt false;
  cribPts ← handPoints (crib env) strt true;
  Some (addScore env (dealer env) cribPts
          (addScore env (dealer env) dealerPts
             (addScore env pone ponePts st2))).

(** [commitDiscardsSelected]; [None] is a [null] selection.  The crib is
    updated from its pending value ([setCrib(c => ...)]), the hand from the
    render's constant ([setPHand(pHand.filter(...))]). *)
Definition commitDiscardsSelected (env : state) (selectedTwo : option (list card))
    (st : state) : state :=
  match selectedTwo with
  | None => st
  | Some sel =>
      if negb (length sel =? 2)%nat then st
      else
        mkState (dealer st)
                (filter (fun c => negb (existsb (fun x => (r x =? r c)
                                           && bool_decide (s x = s c)) sel))
                        (pHand env))
                (aiHand st) (crib st ++ sel) (starter st) phaseCut
                (scores st) (prevScores st) (gameOver st) (winner st)
  end.

End Hook.

(** ** The random generator and the shuffle

    [seededRng] is Mulberry32.  Its state [seed] is a JavaScript number, a
    double holding an integer, that grows by [0x6D2B79F5] per call; the sum
    is rounded to the nearest double ([roundDouble]: exact below [2^53],
    to the nearest multiple of the spacing, ties to the even mantissa, from
    there on, for sums a finite double can hold).  Bit operators read their
    operands as 32-bit integers ([toInt32], [toUint32]); the value returned
    is [k / 2^32] for the integer [k] computed below, which a double holds
    exactly. *)

(** The double nearest to the integer [z]. *)
Definition roundDouble (z : Z) : Z :=
  let a := Z.abs z in
  if a <? 2 ^ 53 then z
  else
    let q := 2 ^ (Z.log2 a - 52) in
    let m := a / q in
    let rem := a - m * q in
    let up := if 2 * rem <? q then m * q
              else if q <? 2 * rem then (m + 1) * q
              else if Z.even m then m * q else (m + 1) * q in
    Z.sgn z * up.

(** [seed += 0x6D2B79F5] *)
Definition nextSeed (seed : Z) : Z := roundDouble (seed + 0x6D2B79F5).

Definition toInt32 (z : Z) : Z := (z + 2 ^ 31) mod 2 ^ 32 - 2 ^ 31.
Definition toUint32 (z : Z) : Z := z mod 2 ^ 32.

(** [Math.imul(a, b)] *)
Definition imul (a b : Z) : Z := toInt32 (toInt32 a * toInt32 b).
(** [a >>> n] *)
Definition ushr (a n : Z) : Z := Z.shiftr (toUint32 a) n.
(** [a ^ b] and [a | b] *)
Definition xor32 (a b : Z) : Z := Z.lxor (toInt32 a) (toInt32 b).
Definition or32 (a b : Z) : Z := Z.lor (toInt32 a) (toInt32 b).

(** One call of the generator: the numerator [k] of the result [k / 2^32]
    and the new [seed]. *)
Definition seededRng (seed : Z) : Z * Z :=
  let seed' := nextSeed seed in
  let t0 := seed' in
  let t1 := imul (xor32 t0 (ushr t0 15)) (or32 t0 1) in
  let t2 := xor32 t1 (t1 + imul (xor32 t1 (ushr t1 7)) (or32 t1 61)) in
  (toUint32 (xor32 t2 (ushr t2 14)), seed').

(** [Math.floor(rng() * (i + 1))] for the result [k / 2^32]: the product
    [k * (i + 1)] is below [2^53] for every array of fewer than [2^21]
    elements, so the double arithmetic is exact. *)
Definition shuffleIndex (k : Z) (i : nat) : nat :=
  Z.to_nat (k * (Z.of_nat i + 1) / 2 ^ 32).

(** [[a[i], a[j]] = [a[j], a[i]]]; [None] when an index is outside the array
    (JavaScript would then store [undefined]). *)
Definition swap {A} (a : list A) (i j : nat) : option (list A) :=
  x ← a !! i; y ← a !! j; Some (<[j := x]> (<[i := y]> a)).

(** [for (let i = a.length - 1; i > 0; i--)] of [shuffle], at index [i]. *)
Fixpoint shuffleLoop {A} (i : nat) (a : list A) (seed : Z) : option (list A * Z) :=
  match i with
  | O => Some (a, seed)
  | S i' =>
      let '(k, seed') := seededRng seed in
      a' ← swap a i (shuffleIndex k i);
      shuffleLoop i' a' seed'
  end.

(** [shuffle(arr, rng)]: a copy of [arr] is permuted; the new state of the
    generator is returned beside it. *)
Definition shuffle {A} (arr : list A) (seed : Z) : option (list A * Z) :=
  shuffleLoop (length arr - 1) arr seed.

(** ** Card sets of the decision engine *)

Definition cardsEqual (a b : card) : bool :=
  (r a =? r b) && bool_decide (s a = s b).

(** [minus(set, rem)] *)
Definition minus (set rem : list card) : list card :=
  filter (fun c => negb (existsb (fun x => cardsEqual x c) rem)) set.

(** The face of a card: what [cardsEqual] compares. *)
Definition face (c : card) : Z * suit := (r c, s c).

(** ** The round handlers of the game hook

    The state cells [deck] and [peg] beside those of [Hook.state].  As there,
    [env] holds the constants of the render that created a handler and [st]
    the pending state its setter calls act on. *)

Module Round.

Record table := mkTable {
  hook : Hook.state;
  peg : option PegState;
  deck : list card;
}.

(** [d.pop()]: the last element and the shortened array; [None] on an empty
    array, where JavaScript yields [undefined]. *)
Definition pop (d : list card) : option (card * list card) :=
  x ← last d; Some (x, take (length d - 1) d).

(** The loop of [deal]: the AI is served first.  [None]: the deck ran out and
    a hand would hold [undefined]. *)
Fixpoint dealLoop (n : nat) (d p a : list card)
    : option (list card * list card * list card) :=
  match n with
  | O => Some (d, p, a)
  | S n' =>
      '(ca, d1) ← pop d;
      '(cp, d2) ← pop d1;
      dealLoop n' d2 (p ++ [cp]) (a ++ [ca])
  end.

Definition deal (env st : table) : option table :=
  '(d, p, a) ← dealLoop 6 (deck env) [] [];
  let h := hook st in
  Some (mkTable
          (Hook.mkState (Hook.dealer h) p a [] (Hook.starter h) Hook.phaseDiscard
                        (Hook.scores h) (Hook.prevScores h) (Hook.gameOver h)
                        (Hook.winner h))
          (peg st) d).

(** [cutStarter]; [None]: the deck is empty and [cut.r] throws. *)
Definition cutStarter (env st : table) : option table :=
  '(cut, d) ← pop (deck env);
  let h := hook st in
  let h1 := Hook.mkState (Hook.dealer h) (Hook.pHand h) (Hook.aiHand h) (Hook.crib h)
                         (Some cut) (Hook.phase h) (Hook.scores h)
                         (Hook.prevScores h) (Hook.gameOver h) (Hook.winner h) in
  let h2 := if r cut =? 11
            then Hook.addScore (hook env) (Hook.dealer (hook env)) 2 h1 else h1 in
  let pState :=
    mkPeg [] 0 (Hook.pHand (hook env)) (Hook.aiHand (hook env))
          (Hook.crib (hook env) ++ [cut]) (Some cut)
          (match Hook.dealer (hook env) with AI => P | P => AI end)
          false false None None in
  Some (mkTable (Hook.setPhase Hook.phasePegging h2) (Some pState) d).

(** [{ ...ps, stack: [], total: 0, pPassed: false, aiPassed: false }] *)
Definition resetPeg (ps : PegState) : PegState :=
  mkPeg [] 0 (pHand ps) (aiHand ps) (seen ps) (starter ps) (next ps)
        false false (points ps) (thirtyOne ps).

(** [playPegCard]; [None]: the show throws on a [null] starter. *)
Definition playPegCard (env : table) (c : card) (st : table) : option table :=
  if Hook.gameOver (hook env) then Some st
  else
    match peg env with
    | None => Some st
    | Some pg =>
        let who := next pg in
        let s1 := applyPlay pg c who in
        let gain := default 0 (points s1) in
        let h1 := if gain =? 0 then hook st
                  else Hook.addScore (hook env) who gain (hook st) in
        if default false (thirtyOne s1)
        then Some (mkTable h1 (Some (resetPeg s1)) (deck st))
        else if bool_decide (pHand s1 = []) && bool_decide (aiHand s1 = [])
             then h2 ← Hook.endPeggingAndScoreHands (hook env) s1 h1;
                  Some (mkTable h2 (Some s1) (deck st))
             else Some (mkTable h1 (Some s1) (deck st))
    end.

(** The synchronous part of [declareGo]; the flag tells whether the 250 ms
    timer was armed. *)
Definition declareGo (env : table) (who : player) (st : table) : table * bool :=
  if Hook.gameOver (hook env) then (st, false)
  else
    match peg env with
    | None => (st, false)
    | Some pg =>
        match who with
        | P =>
            if bool_decide (legalPlays (pHand pg) (total pg) = []) then
              (mkTable (hook st)
                 (Some (mkPeg (stack pg) (total pg) (pHand pg) (aiHand pg) (seen pg)
                              (starter pg) (other who) true (aiPassed pg)
                              (points pg) (thirtyOne pg)))
                 (deck st), true)
            else (st, false)
        | AI =>
            if bool_decide (legalPlays (aiHand pg) (total pg) = []) then
              (mkTable (hook st)
                 (Some (mkPeg (stack pg) (total pg) (pHand pg) (aiHand pg) (seen pg)
                              (starter pg) (other who) (pPassed pg) true
                              (points pg) (thirtyOne pg)))
                 (deck st), true)
            else (st, false)
        end
    end.

(** The timer callback of [declareGo], run on the pending state; the second
    component is the pegging state for which the show is scheduled, if any. *)
Definition goTimeout (env st : table) : table * option PegState :=
  match peg st with
  | None => (st, None)
  | Some ps =>
      if pPassed ps && aiPassed ps then
        let lastP := match next ps with P => AI | AI => P end in
        let h1 := Hook.addScore (hook env) lastP 1 (hook st) in
        let ns := resetPeg ps in
        (mkTable h1 (Some ns) (deck st),
         if bool_decide (pHand ns = []) && bool_decide (aiHand ns = [])
         then Some ns else None)
      else (st, None)
  end.

End Round.

(** ** The board layout

    [threeTrackLayout(cols)]: the hole of index [i] on the three-track board,
    and the index at which [peg] draws a score. *)

Module Board.

Definition gapX : Z := 18.
Definition left : Z := 24.
Definition topY : Z := 28.
Definition rowGap : Z := 44.
Definition yTop : Z := topY.
Definition yMid : Z := topY + rowGap.
Definition yBot : Z := topY + rowGap * 2.

Definition segFor (cols i : Z) : Z :=
  if i <? cols then 0 else if i <? cols * 2 then 1 else 2.

Definition colInSeg (cols i : Z) : Z :=
  let seg := segFor cols i in
  let idx := if seg =? 0 then i else if seg =? 1 then i - cols else i - cols * 2 in
  if seg =? 1 then cols - 1 - idx else idx.

Definition xFor (cols i : Z) : Z := left + Z.min (colInSeg cols i) cols * gapX.

Definition yForSeg (cols i : Z) : Z :=
  let seg := segFor cols i in
  if seg =? 0 then yTop else if seg =? 1 then yBot else yMid.

(** The index [idx] of [peg]: [Math.max(0, Math.min(120, i))]. *)
Definition pegIndex (i : Z) : Z := Z.max 0 (Z.min 120 i).

(** A hole is drawn at [(x, y)]: 40 on the top row, 40 on the bottom row and
    41 on the middle row. *)
Definition hole (x y : Z) : Prop :=
  exists c, x = left + c * gapX
    /\ ((y = yTop /\ 0 <= c < 40) \/ (y = yBot /\ 0 <= c < 40)
        \/ (y = yMid /\ 0 <= c <= 40)).

Definition TRAIL_SHIFT : Z := -3.

(** [peg(i, color, dy, xShift)]: the centre [(cx, cy)] of the circle drawn
    for score [i]. *)
Definition peg (i dy xShift : Z) : Z * Z :=
  let idx := pegIndex i in
  (xFor 40 idx + xShift, yForSeg 40 idx + dy).

(** The four pegs of the board, in drawing order: the AI's trail and lead
    pegs with [dy = -7], then the player's with [dy = +7]; a trail peg is
    shifted by [TRAIL_SHIFT].  The hook always passes both score objects, so
    [scores?.AI ?? 0] is [scores.AI]. *)
Definition pegs (scores prevScores : Hook.scores_t) : list (Z * Z) :=
  [ peg (Hook.get AI prevScores) (-7) TRAIL_SHIFT;
    peg (Hook.get AI scores) (-7) 0;
    peg (Hook.get P prevScores) 7 TRAIL_SHIFT;
    peg (Hook.get P scores) 7 0 ].

End Board.

(** ** Card labels

    [String(r)] of an integer is its decimal numeral, [pretty] here. *)

Definition suitSymbol (su : suit) : string :=
  match su with
  | Clubs => "♣"
  | Diamonds => "♦"
  | Hearts => "♥"
  | Spades => "♠"
  end.

Definition rankLabel (rk : Z) : string :=
  if rk =? 1 then "A"
  else if rk =? 11 then "J"
  else if rk =? 12 then "Q"
  else if rk =? 13 then "K"
  else pretty rk.

Definition cardToString (c : card) : string :=
  rankLabel (r c) +:+ suitSymbol (s c).

(** ** Vocabulary of the statements *)

(** The hand of [who] in a pegging state. *)
Definition handOf (who : player) (st : PegState) : list card :=
  match who with P => pHand st | AI => aiHand st end.

(** A play the rules forbid: over 31, or a card the actor does not hold. *)
Definition illegalPlay (st : PegState) (c : card) (who : player) : Prop :=
  31 < total st + cardValue15 (r c) \/ c ∉ handOf who st.

(** The observable part of a pegging state is the same in [st] and [st']. *)
Definition unchanged (st st' : PegState) : Prop :=
  stack st' = stack st /\ total st' = total st /\ pHand st' = pHand st
  /\ aiHand st' = aiHand st /\ next st' = next st
  /\ pPassed st' = pPassed st /\ aiPassed st' = aiPassed st.

(** *** The pegging award in the words of the specification *)

(** The last [n] cards of [seq] all have one rank. *)
Definition tailEqual (n : nat) (seq : list card) : Prop :=
  (n <= length seq)%nat /\ exists rk, Forall (fun c => r c = rk) (lastn n seq).

(** [n] is the length of the trailing same-rank run of [seq]. *)
Definition trailingSame (n : nat) (seq : list card) : Prop :=
  tailEqual n seq /\ forall n', tailEqual n' seq -> (n' <= n)%nat.

(** The last [l] cards of [seq], [l] from 3 to 7, are consecutive distinct
    ranks in some order. *)
Definition tailRun (l : nat) (seq : list card) : Prop :=
  (3 <= l <= 7)%nat /\ (l <= length seq)%nat
  /\ exists lo, r <$> lastn l seq ≡ₚ seqZ lo (Z.of_nat l).

(** [n] is the longest qualifying tail run of [seq], or 0 if there is none. *)
Definition longestTailRun (n : nat) (seq : list card) : Prop :=
  (n = 0%nat /\ forall l, ~ tailRun l seq)
  \/ (tailRun n seq /\ forall l, tailRun l seq -> (l <= n)%nat).

(** 2, 6, 12 for 2, 3, 4 equal ranks at the tail. *)
Definition specPairPoints (n : nat) : Z :=
  match n with
  | 2%nat => 2
  | 3%nat => 6
  | 4%nat => 12
  | _ => 0
  end.

Definition emptyPeg (ph ah : list card) (nxt : player) : PegState :=
  mkPeg [] 0 ph ah [] None nxt false false None None.

(** *** Auxiliary definitions and the concrete inputs of the examples *)

(** One step of the loop that builds [byRank]. *)
Definition bump (m : gmap Z Z) (rk : Z) : gmap Z Z :=
  <[rk := default 0 (m !! rk) + 1]> m.

(** Every card of [hand] has suit [su]. *)
Definition allOfSuit (su : suit) (hand : list card) : Prop :=
  Forall (fun c => s c = su) hand.

Definition sixCards : list card :=
  [Card 0 1 Clubs; Card 1 4 Hearts; Card 2 7 Spades; Card 3 9 Diamonds;
   Card 4 11 Clubs; Card 5 13 Hearts].

Definition afterDeal : Hook.state :=
  Hook.mkState AI sixCards [] [] None Hook.phaseDiscard
               (Hook.mkScores 0 0) (Hook.mkScores 0 0) false None.

(** The show of a round dealt by the AI, as [endPeggingAndScoreHands] finds
    it: the player (pone) on 118, the AI on 100, the game not over in the
    render that created the handler. *)
Definition showEnv : Hook.state :=
  Hook.mkState AI
    [Card 0 2 Clubs; Card 1 3 Diamonds; Card 2 9 Spades; Card 3 13 Hearts]
    [Card 4 7 Clubs; Card 5 8 Diamonds; Card 6 12 Spades; Card 7 1 Hearts]
    [Card 8 6 Clubs; Card 9 6 Diamonds; Card 10 11 Clubs; Card 11 9 Diamonds]
    (Some (Card 12 4 Hearts)) Hook.phasePegging
    (Hook.mkScores 118 100) (Hook.mkScores 116 100) false None.

(** The pegging state after the player's last card, a King on an empty
    stack. *)
Definition showPeg : PegState :=
  mkPeg [Card 3 13 Hearts] 10 [] []
        [Card 8 6 Clubs; Card 9 6 Diamonds; Card 10 11 Clubs; Card 11 9 Diamonds;
         Card 12 4 Hearts]
        (Some (Card 12 4 Hearts)) AI false false (Some 0) (Some false).

Definition within120 (st : Hook.state) : Prop :=
  forall w, Hook.get w (Hook.scores st) <= 120.

(** Twice the cards still held, plus one while the player to move may still
    pass without ending the loop. *)
Definition simMeasure (sim : Sim) : nat :=
  2 * (length (aiRem sim) + length (pOptions sim))
  + match turn sim with
    | P => if simAiPassed sim then 0 else 1
    | AI => if simPPassed sim then 0 else 1
    end.

(** *** Counting vocabulary for the scoring components *)

(** The capped values of [subset] added up, as [subset.reduce] does. *)
Definition sumVals (subset : list card) : Z :=
  foldl (fun a c => a + cardValue15 (r c)) 0 subset.

(** The number of ways to choose cards of [cards] (by position) whose capped
    values add up to [target]. *)
Fixpoint subsetCount (target : Z) (cards : list card) : Z :=
  match cards with
  | [] => if target =? 0 then 1 else 0
  | c :: cs => subsetCount target cs + subsetCount (target - cardValue15 (r c)) cs
  end.

(** The number of cards of rank [rk]. *)
Definition occ (rk : Z) (cards : list card) : Z :=
  Z.of_nat (length (filter (fun c => r c = rk) cards)).

(** The number of pairs of positions holding equal ranks. *)
Fixpoint pairCount (cards : list card) : Z :=
  match cards with
  | [] => 0
  | c :: cs => occ (r c) cs + pairCount cs
  end.

(** [sumFrom g a n] adds [g k] for [k] from [a] to [a + n - 1]. *)
Fixpoint sumFrom (g : nat -> Z) (a n : nat) : Z :=
  match n with
  | O => 0
  | S n' => g a + sumFrom g (S a) n'
  end.

(** One term of the sum that [count15] accumulates: the subset of mask [k]
    adds up to [t]. *)
Definition hit (t : Z) (arr : list card) (k : nat) : Z :=
  if sumVals (pick (Z.of_nat k) 0 arr) =? t then 1 else 0.

(** The sum that the second loop of [countPairs] takes over a dictionary. *)
Definition pairsOf (m : gmap Z Z) : Z :=
  map_fold (fun _ n pts => if 2 <=? n then pts + n * (n - 1) / 2 * 2 else pts) 0 m.

(** What holds of the pegging state between two actions: the total is the
    sum of the values on the stack and is below 31. *)
Definition pegOK (ps : PegState) : Prop :=
  total ps = sumVals (stack ps) /\ total ps <= 30.

(** The pass flag of [who]. *)
Definition passedOf (who : player) (ps : PegState) : bool :=
  match who with P => pPassed ps | AI => aiPassed ps end.

(** From scores within 120, [st'] has scores within 120 that are nowhere
    lower than those of [st]. *)
Definition scoresGrow (st st' : Hook.state) : Prop :=
  within120 st ->
  within120 st' /\ forall w, Hook.get w (Hook.scores st) <= Hook.get w (Hook.scores st').

(** * Properties of the pegging step *)

Section ApplyPlay.

Variables (st : PegState) (c : card) (who : player).

Lemma applyPlay_stack : stack (applyPlay st c who) = stack st ++ [c].
Proof. reflexivity. Qed.

Lemma applyPlay_total :
  total (applyPlay st c who) = total st + cardValue15 (r c).
Proof. reflexivity. Qed.

Lemma applyPlay_hand_actor :
  handOf who (applyPlay st c who) = filter (fun x => x <> c) (handOf who st).
Proof. destruct who; reflexivity. Qed.

Lemma applyPlay_hand_other :
  handOf (other who) (applyPlay st c who) = handOf (other who) st.
Proof. destruct who; reflexivity. Qed.

Lemma applyPlay_changes : ~ unchanged st (applyPlay st c who).
Proof.
  intros (Hstack & _). rewrite applyPlay_stack in Hstack.
  apply (f_equal length) in Hstack. rewrite length_app in Hstack.
  simpl in Hstack. lia.
Qed.

End ApplyPlay.

Lemma filter_ne_absent (c : card) (l : list card) :
  c ∉ l -> filter (fun x => x <> c) l = l.
Proof.
  intros Hc. induction l as [|x l IH]; [reflexivity|].
  rewrite not_elem_of_cons in Hc. destruct Hc as [Hx Hl].
  rewrite filter_cons_True by congruence. by rewrite IH.
Qed.

(** C1, as stated, fails: at total 25 a King (value 10) is over 31, and
    [applyPlay] still pushes it on the stack and moves the total to 35. *)
Lemma C1_illegal_play_not_rejected :
  let st := mkPeg [Card 0 13 Clubs; Card 1 5 Hearts; Card 2 10 Hearts] 25
                  [Card 3 13 Spades] [Card 4 2 Clubs] [] None P false false None None in
  (illegalPlay st (Card 3 13 Spades) P
   /\ total (applyPlay st (Card 3 13 Spades) P) = 35
   /\ ~ unchanged st (applyPlay st (Card 3 13 Spades) P)).
Proof.
  intros st. split; [left; vm_compute; reflexivity|].
  split; [reflexivity | apply applyPlay_changes].
Qed.

(** C1, amended: [applyPlay] has no legality check and never rejects.  For
    every state, card and actor, legal or not, the card is appended to the
    stack and its capped value added to the total (which may pass 31), so the
    state is never left unchanged; a card the actor does not hold leaves both
    hands as they were. *)
Theorem C1_applyPlay_never_rejects (st : PegState) (c : card) (who : player) :
  stack (applyPlay st c who) = stack st ++ [c]
  /\ total (applyPlay st c who) = total st + cardValue15 (r c)
  /\ ~ unchanged st (applyPlay st c who)
  /\ (c ∉ handOf who st ->
      pHand (applyPlay st c who) = pHand st
      /\ aiHand (applyPlay st c who) = aiHand st).
Proof.
  split; [reflexivity|]. split; [reflexivity|].
  split; [apply applyPlay_changes|].
  intros Hc. destruct who; simpl in *; by rewrite filter_ne_absent.
Qed.

Lemma C1_applyPlay_never_rejects_witness :
  let st := emptyPeg [Card 0 4 Clubs] [Card 1 9 Hearts] P in
  ((Card 2 7 Spades ∉ handOf P st)
   /\ pHand (applyPlay st (Card 2 7 Spades) P) = pHand st).
Proof.
  intros st.
  assert (Hc : Card 2 7 Spades ∉ handOf P st).
  { simpl. rewrite list_elem_of_singleton. discriminate. }
  split; [exact Hc|].
  exact (proj1 (proj2 (proj2 (proj2 (C1_applyPlay_never_rejects st (Card 2 7 Spades) P))) Hc)).
Defined.

(** C5: a card offered by [legalPlays] for the state's total keeps the total
    within 31, and the new total is the old one plus the card's capped
    value, the smaller of its rank and 10. *)
Theorem C5_legal_play_total (st : PegState) (who : player) (hand : list card) (c : card) :
  0 <= total st <= 31 ->
  c ∈ legalPlays hand (total st) ->
  total (applyPlay st c who) = total st + Z.min 10 (r c)
  /\ total (applyPlay st c who) <= 31.
Proof.
  intros _ Hc. unfold legalPlays in Hc. apply list_elem_of_filter in Hc.
  destruct Hc as [Hle _]. rewrite applyPlay_total.
  assert (Hcap : cardValue15 (r c) = Z.min 10 (r c)).
  { unfold cardValue15. destruct (10 <? r c) eqn:E;
      [apply Z.ltb_lt in E|apply Z.ltb_ge in E]; lia. }
  rewrite Hcap in *. split; [reflexivity|exact Hle].
Qed.

Lemma C5_legal_play_total_witness :
  let st := mkPeg [Card 0 13 Clubs; Card 1 12 Hearts] 20
                  [Card 2 9 Spades; Card 3 13 Hearts; Card 4 11 Clubs] [] [] None P
                  false false None None in
  (total (applyPlay st (Card 3 13 Hearts) P) = 30
   /\ total (applyPlay st (Card 3 13 Hearts) P) <= 31).
Proof.
  intros st.
  refine (C5_legal_play_total st P (pHand st) (Card 3 13 Hearts) _ _).
  - simpl. lia.
  - vm_compute. apply list_elem_of_further, list_elem_of_here.
Defined.

(** C10: [applyPlay] clears both passed flags, filters the played card object
    out of the actor's hand only, and keeps the other hand, the seen cards
    and the starter. *)
Theorem C10_applyPlay_frame (st : PegState) (c : card) (who : player) :
  pPassed (applyPlay st c who) = false
  /\ aiPassed (applyPlay st c who) = false
  /\ handOf who (applyPlay st c who) = filter (fun x => x <> c) (handOf who st)
  /\ (forall x, x ∈ handOf who (applyPlay st c who) <-> x ∈ handOf who st /\ x <> c)
  /\ handOf (other who) (applyPlay st c who) = handOf (other who) st
  /\ seen (applyPlay st c who) = seen st
  /\ starter (applyPlay st c who) = starter st.
Proof.
  split; [reflexivity|]. split; [reflexivity|].
  split; [apply applyPlay_hand_actor|].
  split; [|split; [apply applyPlay_hand_other|split; reflexivity]].
  intros x. rewrite applyPlay_hand_actor, list_elem_of_filter. tauto.
Qed.

(** * The pegging award *)

Lemma lastn_snoc {A} (n : nat) (l : list A) (x : A) :
  lastn (S n) (l ++ [x]) = lastn n l ++ [x].
Proof.
  unfold lastn. rewrite length_app. simpl.
  replace (length l + 1 - S n)%nat with (length l - n)%nat by lia.
  rewrite drop_app_le by lia. reflexivity.
Qed.

Lemma lastn_reverse {A} (n : nat) (l : list A) :
  lastn n l = reverse (take n (reverse l)).
Proof. unfold lastn. by rewrite take_reverse, reverse_involutive. Qed.

Lemma sameBack_spec (rk : Z) (back : list card) :
  exists k : nat,
    sameBack rk back = Z.of_nat k /\ (k <= length back)%nat
    /\ Forall (fun c => r c = rk) (take k back)
    /\ (forall x, back !! k = Some x -> r x <> rk).
Proof.
  induction back as [|c back IH]; simpl.
  - exists 0%nat. repeat split; [lia|constructor|]. intros x Hx. discriminate.
  - destruct (r c =? rk) eqn:E.
    + apply Z.eqb_eq in E. rewrite E. destruct IH as (k & Hk & Hle & Hall & Hstop).
      exists (S k). rewrite Hk. repeat split; [lia|lia| |exact Hstop].
      simpl. by constructor.
    + apply Z.eqb_neq in E. exists 0%nat. repeat split; [lia|constructor|].
      simpl. intros x [= <-]. exact E.
Qed.

(** The count kept by the first loop of [isPairRunPoints] is the length of
    the trailing same-rank run. *)
Lemma same_trailing (stk : list card) (c : card) :
  exists n : nat,
    1 + sameBack (r c) (reverse stk) = Z.of_nat n
    /\ trailingSame n (stk ++ [c]).
Proof.
  destruct (sameBack_spec (r c) (reverse stk)) as (k & Hk & Hle & Hall & Hstop).
  rewrite length_reverse in Hle.
  exists (S k). split; [lia|]. split.
  - split; [rewrite length_app; simpl; lia|]. exists (r c).
    rewrite lastn_snoc, lastn_reverse. apply Forall_app. split.
    + by apply Forall_reverse.
    + by repeat constructor.
  - intros n' [Hn' [rk Hrk]].
    destruct (decide (n' <= S k)%nat) as [|Hgt]; [done|exfalso].
    rewrite length_app in Hn'. simpl in Hn'.
    destruct n' as [|n']; [lia|].
    rewrite lastn_snoc, lastn_reverse in Hrk.
    apply Forall_app in Hrk. destruct Hrk as [Hrk Hc].
    apply Forall_inv in Hc. apply Forall_reverse in Hrk.
    rewrite reverse_involutive in Hrk.
    assert (Hlt : (k < length (take n' (reverse stk)))%nat).
    { rewrite length_take, length_reverse. lia. }
    destruct (lookup_lt_is_Some_2 _ _ Hlt) as [x Hx].
    rewrite Forall_lookup in Hrk. pose proof (Hrk _ _ Hx) as Hxr.
    rewrite lookup_take_lt in Hx by lia.
    apply (Hstop x Hx). congruence.
Qed.

Lemma pairPoints_spec (n : nat) : pairPoints (Z.of_nat n) = specPairPoints n.
Proof.
  do 5 (destruct n as [|n]; [reflexivity|]).
  unfold pairPoints.
  rewrite !(proj2 (Z.eqb_neq _ _)) by lia. reflexivity.
Qed.

Lemma consecutive_seqZ (ys : list Z) :
  forall a, consecutive (a :: ys) = true <-> a :: ys = seqZ a (Z.of_nat (S (length ys))).
Proof.
  induction ys as [|b ys IH]; intros a.
  - simpl. rewrite seqZ_cons, seqZ_nil by lia. tauto.
  - change (consecutive (a :: b :: ys)) with ((b =? a + 1) && consecutive (b :: ys)).
    rewrite andb_true_iff, Z.eqb_eq, IH.
    rewrite (seqZ_cons a) by lia.
    replace (Z.pred (Z.of_nat (S (length (b :: ys)))))
      with (Z.of_nat (S (length ys))) by (simpl length; lia).
    split.
    + intros [-> Hys]. f_equal. exact Hys.
    + intros [= Hys].
      assert (Hb : b = Z.succ a).
      { rewrite seqZ_cons in Hys by lia. by injection Hys. }
      subst b. split; [lia|exact Hys].
Qed.

Lemma consecutive_Sorted (ys : list Z) : consecutive ys = true -> Sorted Z.le ys.
Proof.
  induction ys as [|a ys IH]; [constructor|].
  destruct ys as [|b ys]; [repeat constructor|].
  change (consecutive (a :: b :: ys)) with ((b =? a + 1) && consecutive (b :: ys)).
  rewrite andb_true_iff, Z.eqb_eq. intros [-> Hys].
  constructor; [by apply IH|]. constructor. lia.
Qed.

(** The sorted ranks pass the adjacency test of [isPairRunPoints] exactly
    when the ranks are consecutive distinct numbers in some order. *)
Lemma consecutive_sort_iff (xs : list Z) :
  xs <> [] ->
  consecutive (merge_sort Z.le xs) = true
  <-> exists lo, xs ≡ₚ seqZ lo (Z.of_nat (length xs)).
Proof.
  intros Hne.
  pose proof (merge_sort_Permutation Z.le xs) as Hperm.
  pose proof (Permutation_length Hperm) as Hlen.
  split.
  - intros Hc. destruct (merge_sort Z.le xs) as [|a ys] eqn:E.
    + destruct xs; [done|discriminate].
    + exists a. apply consecutive_seqZ in Hc. rewrite <- Hlen.
      simpl length. rewrite <- Hc. by symmetry.
  - intros [lo Hlo].
    assert (Hn : (0 < length xs)%nat) by (destruct xs; [done|simpl; lia]).
    assert (Hseq : consecutive (seqZ lo (Z.of_nat (length xs))) = true).
    { destruct (length xs) as [|n]; [lia|].
      rewrite seqZ_cons by lia.
      apply consecutive_seqZ. rewrite (seqZ_cons lo (Z.of_nat (S _))) by lia.
      f_equal. f_equal. rewrite length_seqZ. lia. }
    assert (Heq : merge_sort Z.le xs = seqZ lo (Z.of_nat (length xs))).
    { apply (Sorted_unique Z.le).
      - apply Sorted_merge_sort; apply _.
      - by apply consecutive_Sorted.
      - by rewrite Hperm. }
    by rewrite Heq.
Qed.

Lemma length_lastn {A} (l : nat) (seq : list A) :
  (l <= length seq)%nat -> length (lastn l seq) = l.
Proof. intros H. unfold lastn. rewrite length_drop. lia. Qed.

Lemma tailRun_test (l : nat) (seq : list card) :
  (3 <= l <= 7)%nat -> (l <= length seq)%nat ->
  consecutive (merge_sort Z.le (r <$> lastn l seq)) = true <-> tailRun l seq.
Proof.
  intros Hl Hlen.
  assert (Hlast : length (r <$> lastn l seq) = l).
  { by rewrite length_fmap, length_lastn. }
  rewrite consecutive_sort_iff.
  - rewrite Hlast. unfold tailRun. tauto.
  - intros E. rewrite E in Hlast. simpl in Hlast. lia.
Qed.

Lemma runLoop_spec (seq : list card) (l : nat) :
  (l <= 7)%nat -> (l <= length seq)%nat ->
  exists n : nat,
    runLoop l seq = Z.of_nat n
    /\ ((n = 0%nat /\ forall l', (l' <= l)%nat -> ~ tailRun l' seq)
        \/ (tailRun n seq /\ forall l', (l' <= l)%nat -> tailRun l' seq -> (l' <= n)%nat)).
Proof.
  induction l as [|l IH]; intros H7 Hlen.
  - exists 0%nat. split; [reflexivity|]. left. split; [reflexivity|].
    intros l' Hl' [Hr _]. lia.
  - simpl runLoop. destruct (S l <? 3)%nat eqn:E3.
    + apply Nat.ltb_lt in E3. exists 0%nat. split; [reflexivity|]. left.
      split; [reflexivity|]. intros l' Hl' [Hr _]. lia.
    + apply Nat.ltb_ge in E3.
      destruct (consecutive (merge_sort Z.le (r <$> lastn (S l) seq))) eqn:Ec.
      * apply tailRun_test in Ec; [|lia|lia].
        exists (S l). split; [reflexivity|]. right. split; [exact Ec|]. auto.
      * destruct IH as (n & Hn & Hcases); [lia|lia|].
        assert (Hno : ~ tailRun (S l) seq).
        { intros Hr. apply tailRun_test in Hr; [|lia|lia]. congruence. }
        exists n. split; [exact Hn|].
        destruct Hcases as [[-> Hnone]|[Hrun Hmax]].
        -- left. split; [reflexivity|]. intros l' Hl'.
           destruct (decide (l' = S l)) as [->|]; [exact Hno|]. apply Hnone. lia.
        -- right. split; [exact Hrun|]. intros l' Hl' Hr.
           destruct (decide (l' = S l)) as [->|]; [done|]. apply Hmax; [lia|done].
Qed.

(** The second loop of [isPairRunPoints] returns the longest qualifying tail
    length. *)
Lemma run_longest (seq : list card) :
  exists n : nat,
    runLoop (Nat.min 7 (length seq)) seq = Z.of_nat n /\ longestTailRun n seq.
Proof.
  destruct (runLoop_spec seq (Nat.min 7 (length seq))) as (n & Hn & Hcases); [lia|lia|].
  exists n. split; [exact Hn|].
  destruct Hcases as [[-> Hnone]|[Hrun Hmax]].
  - left. split; [reflexivity|]. intros l Hr. apply (Hnone l); [|exact Hr].
    destruct Hr as (? & ? & _). lia.
  - right. split; [exact Hrun|]. intros l Hr. apply Hmax; [|exact Hr].
    destruct Hr as (? & ? & _). lia.
Qed.

(** C4: the points of [applyPlay] are 2 for a new total of 15, 2 for a new
    total of 31, the pair award 2/6/12 for a trailing same-rank run of 2/3/4
    cards ending at the new card, and the length of the longest tail of 3 to 7
    cards whose ranks are consecutive in some order (0 if there is none;
    shorter tails inside it are not added). *)
Theorem C4_applyPlay_points (st : PegState) (c : card) (who : player) :
  let newTotal := total st + cardValue15 (r c) in
  let seq := stack st ++ [c] in
  exists same run : nat,
    trailingSame same seq
    /\ longestTailRun run seq
    /\ points (applyPlay st c who)
       = Some ((if decide (newTotal = 15) then 2 else 0)
               + (if decide (newTotal = 31) then 2 else 0)
               + specPairPoints same + Z.of_nat run).
Proof.
  intros newTotal seq.
  destruct (same_trailing (stack st) c) as (same & Hsame & Htrail).
  destruct (run_longest seq) as (run & Hrun & Hlong).
  exists same, run. split; [exact Htrail|]. split; [exact Hlong|].
  unfold applyPlay, isPairRunPoints. cbn [points].
  change (stack st ++ [c]) with seq. change (total st + cardValue15 (r c)) with newTotal.
  rewrite Hsame, Hrun, pairPoints_spec. f_equal.
  subst newTotal. generalize (total st + cardValue15 (r c)). intros T.
  destruct (decide (T = 15)) as [E15|H15];
    destruct (decide (T = 31)) as [E31|H31]; try lia.
  - rewrite E15. simpl. lia.
  - rewrite E31. simpl. lia.
  - rewrite !(proj2 (Z.eqb_neq _ _)) by done. lia.
Qed.

(** * Hand scoring *)

Lemma byRank_ranks (cards : list card) :
  byRank cards = foldl bump ∅ (r <$> cards).
Proof. unfold byRank. by rewrite foldl_fmap. Qed.

Lemma bump_comm (m : gmap Z Z) (a b : Z) :
  bump (bump m a) b = bump (bump m b) a.
Proof.
  destruct (decide (a = b)) as [->|Hab]; [reflexivity|].
  unfold bump. apply map_eq. intros i.
  rewrite (lookup_insert_ne _ a b) by done.
  rewrite (lookup_insert_ne _ b a) by done.
  destruct (decide (i = a)) as [->|Hia].
  - rewrite lookup_insert_ne by done. by rewrite !lookup_insert_eq.
  - destruct (decide (i = b)) as [->|Hib].
    + rewrite lookup_insert_eq. rewrite lookup_insert_ne by done.
      by rewrite lookup_insert_eq.
    + by rewrite !lookup_insert_ne by done.
Qed.

Lemma foldl_bump_perm (l1 l2 : list Z) :
  l1 ≡ₚ l2 -> forall m, foldl bump m l1 = foldl bump m l2.
Proof.
  induction 1 as [|x l1 l2 _ IH|x y l|l1 l2 l3 _ IH1 _ IH2]; intros m; simpl.
  - reflexivity.
  - apply IH.
  - by rewrite bump_comm.
  - by rewrite IH1.
Qed.

(** The dictionary of rank counts depends on the multiset of ranks only. *)
Lemma byRank_perm (cs1 cs2 : list card) :
  r <$> cs1 ≡ₚ r <$> cs2 -> byRank cs1 = byRank cs2.
Proof. intros H. rewrite !byRank_ranks. by apply foldl_bump_perm. Qed.

(** Hence so do the pair and run scores: the order of the cards, their suits
    and their identities are irrelevant. *)
Lemma countPairs_perm (cs1 cs2 : list card) :
  r <$> cs1 ≡ₚ r <$> cs2 -> countPairs cs1 = countPairs cs2.
Proof. intros H. unfold countPairs. by rewrite (byRank_perm cs1 cs2 H). Qed.

Lemma countRuns_perm (cs1 cs2 : list card) :
  r <$> cs1 ≡ₚ r <$> cs2 -> countRuns cs1 = countRuns cs2.
Proof. intros H. unfold countRuns. by rewrite (byRank_perm cs1 cs2 H). Qed.

Lemma runSpan_rest_length (l : list Z) :
  forall prev, (length (runSpan prev l).2 <= length l)%nat.
Proof.
  induction l as [|x l IH]; intros prev; simpl; [lia|].
  destruct (x =? prev + 1); [|simpl; lia].
  specialize (IH x). destruct (runSpan x l) as [run rest]. simpl in *. lia.
Qed.

Lemma countRunsLoop_total (m : gmap Z Z) (fuel : nat) :
  forall unique bestLen tot,
    (length unique < fuel)%nat ->
    is_Some (countRunsLoop fuel m unique bestLen tot).
Proof.
  induction fuel as [|fuel IH]; intros unique bestLen tot Hlt; [lia|].
  destruct unique as [|x l]; simpl; [by eexists|].
  pose proof (runSpan_rest_length l x) as Hrest.
  destruct (runSpan x l) as [run rest]. simpl in Hrest, Hlt.
  assert (Hr : (length rest < fuel)%nat) by lia.
  repeat case_match; by apply IH.
Qed.

(** The fuel given to the loop of [countRuns] is never used up: [countRuns]
    and [handPoints] return a number for every group of cards. *)
Lemma countRuns_total (cards : list card) : is_Some (countRuns cards).
Proof. unfold countRuns. apply countRunsLoop_total. lia. Qed.

Lemma handPoints_total (hand4 : list card) (strt : card) (isCrib : bool) :
  is_Some (handPoints hand4 strt isCrib).
Proof.
  unfold handPoints. destruct (countRuns_total (hand4 ++ [strt])) as [v ->].
  by eexists.
Qed.

(** C2, as stated, fails: the group 3 4 5 5 6 gets 8 run points, not 6. *)
Lemma C2_runs_not_6 :
  countRuns [Card 0 3 Clubs; Card 1 4 Hearts; Card 2 5 Spades; Card 3 5 Diamonds;
             Card 4 6 Clubs] <> Some 6.
Proof. vm_compute. discriminate. Qed.

(** C2, amended: every 5-card group whose ranks are 3, 4, 5, 5, 6 in some
    order gets exactly 8 run points (the run 3-4-5-6 of length 4, counted
    once per 5) and 2 pair points; the run award is not that of a single run
    of 5. *)
Theorem C2_runs_3_4_5_5_6 (cards : list card) :
  r <$> cards ≡ₚ [3; 4; 5; 5; 6] ->
  countRuns cards = Some (4 * 2) /\ countPairs cards = 2
  /\ countRuns cards <> Some 5.
Proof.
  intros Hperm.
  pose (canon := [Card 0 3 Clubs; Card 0 4 Clubs; Card 0 5 Clubs; Card 0 5 Clubs;
                  Card 0 6 Clubs]).
  assert (Hc : r <$> cards ≡ₚ r <$> canon) by exact Hperm.
  rewrite (countRuns_perm _ _ Hc), (countPairs_perm _ _ Hc).
  vm_compute. repeat split; discriminate.
Qed.

Lemma C2_runs_3_4_5_5_6_witness :
  countRuns [Card 0 5 Hearts; Card 1 3 Clubs; Card 2 6 Spades; Card 3 4 Diamonds;
             Card 4 5 Clubs] = Some 8.
Proof.
  refine (proj1 (C2_runs_3_4_5_5_6
            [Card 0 5 Hearts; Card 1 3 Clubs; Card 2 6 Spades; Card 3 4 Diamonds;
             Card 4 5 Clubs] _)).
  simpl. change [5; 3; 6; 4; 5] with ([5] ++ [3; 6; 4; 5]).
  etransitivity; [apply Permutation_app_comm|]. simpl.
  apply perm_skip.
  change [6; 4; 5; 5] with ([6] ++ [4; 5; 5]).
  etransitivity; [apply Permutation_app_comm|]. simpl.
  reflexivity.
Defined.

(** C3, as stated, fails: the hand 5C 5D 5H 10S with starter JC does not
    score 29. *)
Lemma C3_not_29 :
  handPoints [Card 0 5 Clubs; Card 1 5 Diamonds; Card 2 5 Hearts; Card 3 10 Spades]
             (Card 4 11 Clubs) false <> Some 29.
Proof. vm_compute. discriminate. Qed.

(** C3, amended: [handPoints] of 5C 5D 5H 10S with starter JC, not as a crib,
    is 20: 14 for the seven fifteens and 6 for the three fives, with no run,
    no flush, no knobs and no house bonus; this holds whatever objects carry
    the five cards. *)
Theorem C3_hand_5_5_5_10_J (o1 o2 o3 o4 o5 : nat) :
  let hand := [Card o1 5 Clubs; Card o2 5 Diamonds; Card o3 5 Hearts; Card o4 10 Spades] in
  let st := Card o5 11 Clubs in
  handPoints hand st false = Some 20
  /\ count15 (hand ++ [st]) = 14
  /\ countPairs (hand ++ [st]) = 6
  /\ countRuns (hand ++ [st]) = Some 0
  /\ flushPoints hand (Some st) false = 0
  /\ knobsPoints hand (Some st) = 0
  /\ hull798Bonus (hand ++ [st]) = 0.
Proof. vm_compute. repeat split; reflexivity. Qed.

Lemma allSameSuit_true (hand : list card) (su : suit) :
  hand <> [] -> allOfSuit su hand ->
  allSameSuit hand = true /\ head (s <$> hand) = Some su.
Proof.
  intros Hne Hall. destruct hand as [|c0 hand]; [done|].
  pose proof (Forall_inv Hall) as H0. simpl in H0.
  split; [|simpl; by rewrite H0].
  unfold allSameSuit. apply forallb_forall. intros su' Hin.
  apply bool_decide_eq_true. simpl. f_equal. rewrite H0.
  apply in_map_iff in Hin. destruct Hin as (c' & <- & Hc').
  unfold allOfSuit in Hall. rewrite Forall_forall in Hall.
  apply Hall. by apply list_elem_of_In.
Qed.

Lemma allSameSuit_false (hand : list card) :
  (forall su, ~ allOfSuit su hand) -> allSameSuit hand = false.
Proof.
  intros Hno. destruct (allSameSuit hand) eqn:E; [|reflexivity]. exfalso.
  destruct hand as [|c0 hand]; [apply (Hno Clubs); constructor|].
  apply (Hno (s c0)). unfold allOfSuit. rewrite Forall_forall. intros c' Hc'.
  unfold allSameSuit in E. rewrite forallb_forall in E.
  specialize (E (s c')). simpl in E.
  assert (Hin : In (s c') (s c0 :: (s <$> hand))).
  { change (In (s c') (s <$> (c0 :: hand))). apply in_map. by apply list_elem_of_In. }
  apply E in Hin. apply bool_decide_eq_true in Hin. congruence.
Qed.

(** C6: for a 4-card hand, the flush award is 0 unless the four cards share a
    suit; when they do it is 5 if the starter has that suit too, and otherwise
    4 for a hand and 0 for the crib. *)
Theorem C6_flushPoints (hand : list card) (strt : option card) (isCrib : bool) :
  length hand = 4%nat ->
  ((forall su, ~ allOfSuit su hand) -> flushPoints hand strt isCrib = 0)
  /\ (forall su, allOfSuit su hand ->
        (s <$> strt = Some su -> flushPoints hand strt isCrib = 5)
        /\ (s <$> strt <> Some su ->
            flushPoints hand strt isCrib = if isCrib then 0 else 4)).
Proof.
  intros Hlen. split.
  - intros Hno. unfold flushPoints. by rewrite (allSameSuit_false hand Hno).
  - intros su Hall.
    assert (Hne : hand <> []) by (intros ->; discriminate).
    destruct (allSameSuit_true hand su Hne Hall) as [Hs Hh].
    unfold flushPoints. rewrite Hs, Hh. simpl. split.
    + intros Hst. destruct strt as [st|]; [|discriminate].
      simpl in Hst. rewrite bool_decide_eq_true_2 by congruence. reflexivity.
    + intros Hst. destruct strt as [st|]; [|reflexivity].
      simpl in Hst. rewrite bool_decide_eq_false_2 by congruence. reflexivity.
Qed.

Lemma C6_flushPoints_witness :
  flushPoints [Card 0 2 Hearts; Card 1 7 Hearts; Card 2 9 Hearts; Card 3 12 Hearts]
              (Some (Card 4 5 Spades)) true = 0.
Proof.
  refine (proj2 (proj2 (C6_flushPoints
            [Card 0 2 Hearts; Card 1 7 Hearts; Card 2 9 Hearts; Card 3 12 Hearts]
            (Some (Card 4 5 Spades)) true _) Hearts _) _).
  - reflexivity.
  - repeat constructor.
  - simpl. discriminate.
Defined.

(** * The discard commit *)

(** C7, as stated, fails: two cards that are not in the 6-card hand are
    committed all the same; the crib receives them and the phase moves on. *)
Lemma C7_foreign_cards_committed :
  let sel := [Card 40 2 Diamonds; Card 41 3 Diamonds] in
  let st' := Hook.commitDiscardsSelected afterDeal (Some sel) afterDeal in
  (forall c, c ∈ sel -> c ∉ Hook.pHand afterDeal)
  /\ Hook.crib afterDeal = []
  /\ Hook.crib st' = sel
  /\ Hook.phase st' = Hook.phaseCut
  /\ st' <> afterDeal.
Proof.
  intros sel st'. split; [|vm_compute; repeat split; discriminate].
  intros c Hc Hin. unfold sel in Hc. simpl in Hin. unfold sixCards in Hin.
  repeat (apply elem_of_cons in Hc; destruct Hc as [->|Hc]);
    [| |by apply elem_of_nil in Hc];
    repeat (apply elem_of_cons in Hin; destruct Hin as [Hin|Hin]; [discriminate|]);
    by apply elem_of_nil in Hin.
Qed.

(** C7, amended: a discard commit whose selection is missing or does not have
    exactly 2 cards is rejected with no state change.  A selection of exactly
    2 cards is always committed, with no check that the cards are in the
    hand: both are appended to the crib, the hand becomes the hand of the
    render with every card removed that matches a selected card in rank and
    suit (the other cards kept once each, in order), and the phase becomes
    ["cut"]. *)
Theorem C7_commitDiscards (env st : Hook.state) (selectedTwo : option (list card)) :
  ((forall sel, selectedTwo = Some sel -> length sel <> 2%nat) ->
     Hook.commitDiscardsSelected env selectedTwo st = st)
  /\ (forall sel, selectedTwo = Some sel -> length sel = 2%nat ->
       let st' := Hook.commitDiscardsSelected env selectedTwo st in
       Hook.crib st' = Hook.crib st ++ sel
       /\ Hook.phase st' = Hook.phaseCut
       /\ Hook.pHand st'
          = filter (fun c => Forall (fun x => ~ (r x = r c /\ s x = s c)) sel)
                   (Hook.pHand env)
       /\ (forall c, c ∈ Hook.pHand st' <->
                     c ∈ Hook.pHand env
                     /\ forall x, x ∈ sel -> ~ (r x = r c /\ s x = s c))).
Proof.
  assert (Hmatch : forall (sel : list card) (c : card),
    negb (existsb (fun x => (r x =? r c) && bool_decide (s x = s c)) sel) = true
    <-> Forall (fun x => ~ (r x = r c /\ s x = s c)) sel).
  { intros sel c. rewrite negb_true_iff, <- not_true_iff_false, existsb_exists.
    rewrite Forall_forall. split.
    - intros Hno x Hx Hm. apply Hno. exists x. split; [by apply list_elem_of_In|].
      rewrite andb_true_iff, Z.eqb_eq, bool_decide_eq_true. exact Hm.
    - intros Hall (x & Hx & Hm).
      rewrite andb_true_iff, Z.eqb_eq, bool_decide_eq_true in Hm.
      apply (Hall x); [by apply list_elem_of_In|exact Hm]. }
  split.
  - intros Hbad. destruct selectedTwo as [sel|]; [|reflexivity].
    unfold Hook.commitDiscardsSelected.
    rewrite (proj2 (Nat.eqb_neq _ _)) by (by apply Hbad). reflexivity.
  - intros sel -> Hlen st'. unfold st', Hook.commitDiscardsSelected.
    rewrite (proj2 (Nat.eqb_eq _ _) Hlen). simpl.
    split; [reflexivity|]. split; [reflexivity|].
    assert (Heq : filter (fun c => negb (existsb (fun x => (r x =? r c)
                                          && bool_decide (s x = s c)) sel))
                         (Hook.pHand env)
                  = filter (fun c => Forall (fun x => ~ (r x = r c /\ s x = s c)) sel)
                           (Hook.pHand env)).
    { apply list_filter_iff. intros c. rewrite Is_true_true. apply Hmatch. }
    split; [exact Heq|].
    intros c. rewrite Heq, list_elem_of_filter, Forall_forall. tauto.
Qed.

Lemma C7_commitDiscards_witness :
  Hook.commitDiscardsSelected afterDeal (Some [Card 0 1 Clubs]) afterDeal = afterDeal
  /\ Hook.crib (Hook.commitDiscardsSelected afterDeal
                  (Some [Card 0 1 Clubs; Card 4 11 Clubs]) afterDeal)
     = [Card 0 1 Clubs; Card 4 11 Clubs]
  /\ Hook.pHand (Hook.commitDiscardsSelected afterDeal
                   (Some [Card 0 1 Clubs; Card 4 11 Clubs]) afterDeal)
     = [Card 1 4 Hearts; Card 2 7 Spades; Card 3 9 Diamonds; Card 5 13 Hearts].
Proof.
  split.
  - refine (proj1 (C7_commitDiscards afterDeal afterDeal (Some [Card 0 1 Clubs])) _).
    intros sel [= <-]. simpl. lia.
  - destruct (proj2 (C7_commitDiscards afterDeal afterDeal
                       (Some [Card 0 1 Clubs; Card 4 11 Clubs]))
                    [Card 0 1 Clubs; Card 4 11 Clubs] eq_refl eq_refl)
      as (Hcrib & _ & Hhand & _).
    split; [exact Hcrib|]. rewrite Hhand. vm_compute. reflexivity.
Defined.

(** * Score accumulation *)

Section AddScore.

Variables (env st : Hook.state) (who : player) (delta : Z).

Lemma get_set (w : player) (v : Z) (sc : Hook.scores_t) :
  Hook.get w (Hook.set who v sc) = if decide (w = who) then v else Hook.get w sc.
Proof. destruct w, who; reflexivity. Qed.

Lemma addScore_scores (w : player) :
  Hook.get w (Hook.scores (Hook.addScore env who delta st))
  = if decide (w = who /\ 0 < delta /\ Hook.gameOver env = false)
    then Z.min 120 (Hook.get who (Hook.scores st) + delta)
    else Hook.get w (Hook.scores st).
Proof.
  unfold Hook.addScore.
  destruct (delta <=? 0) eqn:Ed; [apply Z.leb_le in Ed|apply Z.leb_gt in Ed];
    destruct (Hook.gameOver env) eqn:Eg; simpl;
    try (rewrite decide_False by (intros (_ & ? & ?); (lia || discriminate)); reflexivity).
  destruct (120 <=? _); simpl; rewrite get_set;
    destruct (decide (w = who)) as [->|Hw].
  - by rewrite decide_True.
  - by rewrite decide_False by tauto.
  - by rewrite decide_True.
  - by rewrite decide_False by tauto.
Qed.

(** The clamp: no score passes 120. *)
Lemma addScore_within120 :
  within120 st -> within120 (Hook.addScore env who delta st).
Proof.
  intros H w. rewrite addScore_scores. case_decide; [lia|apply H].
Qed.

(** Scores never go down. *)
Lemma addScore_mono (w : player) :
  within120 st ->
  Hook.get w (Hook.scores st) <= Hook.get w (Hook.scores (Hook.addScore env who delta st)).
Proof.
  intros H. rewrite addScore_scores. case_decide as Hc; [|lia].
  destruct Hc as (-> & Hd & _). specialize (H who). lia.
Qed.

(** The award that reaches 120 raises the game-over flag in the same update. *)
Lemma addScore_triggers_gameOver :
  Hook.gameOver env = false -> 0 < delta ->
  120 <= Hook.get who (Hook.scores st) + delta ->
  let st' := Hook.addScore env who delta st in
  Hook.gameOver st' = true /\ Hook.winner st' = Some who
  /\ Hook.get who (Hook.scores st') = 120.
Proof.
  intros Hg Hd Hreach. unfold Hook.addScore. rewrite Hg.
  rewrite (proj2 (Z.leb_gt _ _)) by lia. simpl.
  rewrite Z.min_l by lia. simpl.
  split; [reflexivity|]. split; [reflexivity|]. rewrite get_set. by rewrite decide_True.
Qed.

(** A handler created by a render that already sees the game over adds
    nothing. *)
Lemma addScore_gameOver_seen :
  Hook.gameOver env = true -> Hook.addScore env who delta st = st.
Proof. intros Hg. unfold Hook.addScore. rewrite Hg, orb_true_r. reflexivity. Qed.

End AddScore.

(** C8 is violated by the code.  In the show, [endPeggingAndScoreHands] calls
    [addScore] three times from one closure.  With the pone on 118 and the
    dealer on 100, the pone's 7 points are clamped to 120 and raise the
    game-over flag; the dealer's hand (4) and crib (6) are added afterwards
    all the same, because [addScore] tests the [gameOver] constant of its
    render, which is still false. *)
Theorem C8_points_added_after_gameOver :
  let st1 := Hook.addScore showEnv P 7 (Hook.setPhase Hook.phaseShow showEnv) in
  handPoints (Hook.pHand showEnv) (Card 12 4 Hearts) false = Some 7
  /\ Hook.gameOver st1 = true
  /\ Hook.scores st1 = Hook.mkScores 120 100
  /\ exists st', Hook.endPeggingAndScoreHands showEnv showPeg showEnv = Some st'
       /\ Hook.gameOver st' = true
       /\ Hook.winner st' = Some P
       /\ Hook.scores st' = Hook.mkScores 120 110.
Proof.
  intros st1. split; [vm_compute; reflexivity|].
  split; [vm_compute; reflexivity|]. split; [vm_compute; reflexivity|].
  eexists. split; [vm_compute; reflexivity|]. simpl. repeat split; reflexivity.
Qed.

(** The same defect lets the later award take the win: with the dealer on
    112 the pone reaches 120 first, and the dealer's two awards then reach
    120 as well and overwrite the winner. *)
Lemma winner_overwritten_after_gameOver :
  let env := Hook.setScoring (Hook.mkScores 118 112) (Hook.mkScores 118 112)
                             false None showEnv in
  exists st', Hook.endPeggingAndScoreHands env showPeg env = Some st'
    /\ Hook.scores st' = Hook.mkScores 120 120
    /\ Hook.winner st' = Some AI.
Proof.
  intros env. eexists. split; [vm_compute; reflexivity|]. simpl. split; reflexivity.
Qed.

(** * Playouts of the pegging search *)

Lemma isPairRunPoints_nonneg (stk : list card) (c : card) :
  0 <= isPairRunPoints stk c.
Proof.
  unfold isPairRunPoints.
  destruct (run_longest (stk ++ [c])) as (n & -> & _).
  unfold pairPoints. repeat case_match; lia.
Qed.

Lemma immediatePts_nonneg (tot : Z) (stk : list card) (c : card) :
  0 <= immediatePts tot stk c.
Proof.
  unfold immediatePts. pose proof (isPairRunPoints_nonneg stk c).
  repeat case_match; lia.
Qed.

(** The card chosen for the simulated opponent is one of the legal cards, and
    [bestPts] is its immediate score. *)
Lemma choosePlayP_acc (tot : Z) (stk : list card) (l : list card) :
  forall b0 p0 b p,
    foldl (fun '(best, bestPts) c =>
             let pts := immediatePts tot stk c in
             if bestPts <? pts then (Some c, pts) else (best, bestPts))
          (b0, p0) l = (b, p) ->
    (b = b0 /\ p = p0)
    \/ (exists c, b = Some c /\ c ∈ l /\ p = immediatePts tot stk c).
Proof.
  induction l as [|x l IH]; intros b0 p0 b p; simpl.
  - intros [= <- <-]. by left.
  - destruct (p0 <? immediatePts tot stk x) eqn:E; intros Hf; apply IH in Hf.
    + destruct Hf as [[-> ->]|(c & -> & Hc & ->)]; right.
      * exists x. split; [reflexivity|]. split; [apply list_elem_of_here|reflexivity].
      * exists c. split; [reflexivity|]. split; [by apply list_elem_of_further|reflexivity].
    + destruct Hf as [[-> ->]|(c & -> & Hc & ->)]; [by left|right].
      exists c. split; [reflexivity|]. split; [by apply list_elem_of_further|reflexivity].
Qed.

Lemma choosePlayP_Some (tot : Z) (stk : list card) (l : list card) (c : card) (p : Z) :
  choosePlayP tot stk l = (Some c, p) -> c ∈ l /\ p = immediatePts tot stk c.
Proof.
  intros H. apply choosePlayP_acc in H.
  destruct H as [[? _]|(c' & [= <-] & ? & ?)]; [discriminate|done].
Qed.

Lemma choosePlayP_nonempty (tot : Z) (stk : list card) (l : list card) :
  l <> [] -> exists c p, choosePlayP tot stk l = (Some c, p).
Proof.
  intros Hne. destruct l as [|x l]; [done|].
  unfold choosePlayP. simpl.
  rewrite (proj2 (Z.ltb_lt _ _)) by (pose proof (immediatePts_nonneg tot stk x); lia).
  destruct (foldl _ (Some x, immediatePts tot stk x) l) as [b p] eqn:E.
  apply choosePlayP_acc in E.
  destruct E as [[-> ->]|(c & -> & _ & ->)]; eauto.
Qed.

Lemma choosePlayAI_acc (tot : Z) (stk : list card) (l : list card) :
  forall b0 p0 t0 b p t,
    foldl (fun '(best, bestPts, bestTotal) c =>
             let t2 := tot + cardValue15 (r c) in
             let pts := immediatePts tot stk c in
             if (bestPts <? pts) || ((pts =? bestPts) && (bestTotal <? t2))
             then (Some c, pts, t2) else (best, bestPts, bestTotal))
          (b0, p0, t0) l = (b, p, t) ->
    (b = b0 /\ p = p0)
    \/ (exists c, b = Some c /\ c ∈ l /\ p = immediatePts tot stk c).
Proof.
  induction l as [|x l IH]; intros b0 p0 t0 b p t; simpl.
  - intros [= <- <- <-]. by left.
  - destruct ((p0 <? immediatePts tot stk x)
              || ((immediatePts tot stk x =? p0) && (t0 <? tot + cardValue15 (r x))));
      intros Hf; apply IH in Hf.
    + destruct Hf as [[-> ->]|(c & -> & Hc & ->)]; right.
      * exists x. split; [reflexivity|]. split; [apply list_elem_of_here|reflexivity].
      * exists c. split; [reflexivity|]. split; [by apply list_elem_of_further|reflexivity].
    + destruct Hf as [[-> ->]|(c & -> & Hc & ->)]; [by left|right].
      exists c. split; [reflexivity|]. split; [by apply list_elem_of_further|reflexivity].
Qed.

Lemma choosePlayAI_Some (tot : Z) (stk : list card) (l : list card)
    (c : card) (p t : Z) :
  choosePlayAI tot stk l = (Some c, p, t) -> c ∈ l /\ p = immediatePts tot stk c.
Proof.
  intros H. apply choosePlayAI_acc in H.
  destruct H as [[? _]|(c' & [= <-] & ? & ?)]; [discriminate|done].
Qed.

Lemma choosePlayAI_nonempty (tot : Z) (stk : list card) (l : list card) :
  l <> [] -> exists c p t, choosePlayAI tot stk l = (Some c, p, t).
Proof.
  intros Hne. destruct l as [|x l]; [done|].
  unfold choosePlayAI. simpl.
  rewrite (proj2 (Z.ltb_lt (-1) _)) by (pose proof (immediatePts_nonneg tot stk x); lia).
  simpl.
  destruct (foldl _ (Some x, immediatePts tot stk x, tot + cardValue15 (r x)) l)
    as [[b p] t] eqn:E.
  apply choosePlayAI_acc in E.
  destruct E as [[-> ->]|(c & -> & _ & ->)]; eauto.
Qed.

Lemma legalPlays_elem (hand : list card) (tot : Z) (c : card) :
  c ∈ legalPlays hand tot -> c ∈ hand.
Proof. unfold legalPlays. rewrite list_elem_of_filter. tauto. Qed.

Lemma remove_played_length (c : card) (l : list card) :
  c ∈ l -> (length (filter (fun x => x <> c) l) < length l)%nat.
Proof. intros Hc. apply (length_filter_lt _ _ c); [exact Hc|]. intros H. by apply H. Qed.

(** The playout loop ends within its fuel. *)
Lemma rolloutLoop_total (fuel : nat) :
  forall sim, (simMeasure sim < fuel)%nat -> is_Some (rolloutLoop fuel sim).
Proof.
  induction fuel as [|fuel IH]; intros sim Hm; [lia|].
  destruct sim as [tn tot stk ai po pts pp ap lm].
  unfold simMeasure in Hm. simpl in Hm.
  destruct tn; simpl rolloutLoop.
  - case_bool_decide as Hleg.
    + destruct ap; [by eexists|]. apply IH. unfold simMeasure. simpl. lia.
    + destruct (choosePlayP_nonempty tot stk _ Hleg) as (c & p & Hch).
      rewrite Hch. destruct (_ =? 31); [by eexists|].
      apply choosePlayP_Some in Hch. destruct Hch as [Hc _].
      apply legalPlays_elem, remove_played_length in Hc.
      apply IH. unfold simMeasure. simpl. destruct pp, ap; lia.
  - case_bool_decide as Hleg.
    + destruct pp; [by eexists|]. apply IH. unfold simMeasure. simpl. lia.
    + destruct (choosePlayAI_nonempty tot stk _ Hleg) as (c & p & t & Hch).
      rewrite Hch. destruct (_ =? 31); [by eexists|].
      apply choosePlayAI_Some in Hch. destruct Hch as [Hc _].
      apply legalPlays_elem, remove_played_length in Hc.
      apply IH. unfold simMeasure. simpl. destruct pp, ap; lia.
Qed.

(** Every playout returns a score. *)
Lemma rolloutOnce_total (state : PegState) (play : card) (oppSample : list card) :
  is_Some (rolloutOnce state play oppSample).
Proof.
  unfold rolloutOnce. destruct (_ =? 31); [by eexists|].
  apply rolloutLoop_total. unfold simMeasure, rolloutFuel. simpl. lia.
Qed.

Lemma rolloutTotal_total (state : PegState) (play : card) (samples : list (list card)) :
  is_Some (rolloutTotal state play samples).
Proof.
  induction samples as [|smp samples [v IH]]; simpl; [by eexists|].
  destruct (rolloutOnce_total state play smp) as [x ->]. rewrite IH. by eexists.
Qed.

(** C9, as stated, fails: after K 5 on the table (total 15) the AI tries the
    6 (total 21, no points) and the sampled opponent answers with a 10 for 31
    (2 points).  The playout ends at once with a net score of -2: the 2 points
    are subtracted and no further point is. *)
Lemma C9_no_extra_point_for_opponent :
  let st := mkPeg [Card 0 13 Clubs; Card 1 5 Diamonds] 15
                  [Card 20 1 Clubs] [Card 2 6 Spades; Card 3 9 Clubs]
                  [] (Some (Card 12 4 Hearts)) AI false false None None in
  let play := Card 2 6 Spades in
  let opp := Card 30 10 Hearts in
  (immediatePts (total st) (stack st) play = 0
   /\ total st + cardValue15 (r play) + cardValue15 (r opp) = 31
   /\ immediatePts 21 (stack st ++ [play]) opp = 2
   /\ rolloutOnce st play [opp] = Some (-2)
   /\ rolloutOnce st play [opp] <> Some (0 - (2 + 1))).
Proof. vm_compute. repeat split; discriminate. Qed.

(** C9, amended: a play that brings the running total to exactly 31 ends the
    playout at once.  When it is the candidate card itself, the playout adds
    the card's points and 1 more to the AI's net score.  When it is a later
    play of either side, the playout adds nothing beyond that play's own
    points: they are subtracted from the net score for the simulated
    opponent and added to it for the AI. *)
Theorem C9_rollout_thirty_one :
  (forall state play oppSample,
      total state + cardValue15 (r play) = 31 ->
      rolloutOnce state play oppSample
      = Some (immediatePts (total state) (stack state) play + 1))
  /\ (forall fuel sim playC bestPts,
        turn sim = P ->
        choosePlayP (simTotal sim) (simStack sim)
                    (legalPlays (pOptions sim) (simTotal sim)) = (Some playC, bestPts) ->
        simTotal sim + cardValue15 (r playC) = 31 ->
        rolloutLoop (S fuel) sim
        = Some (aiPts sim - immediatePts (simTotal sim) (simStack sim) playC))
  /\ (forall fuel sim play2 bestPts bestTotal,
        turn sim = AI ->
        choosePlayAI (simTotal sim) (simStack sim)
                     (legalPlays (aiRem sim) (simTotal sim))
          = (Some play2, bestPts, bestTotal) ->
        simTotal sim + cardValue15 (r play2) = 31 ->
        rolloutLoop (S fuel) sim
        = Some (aiPts sim + immediatePts (simTotal sim) (simStack sim) play2)).
Proof.
  split; [|split].
  - intros state play oppSample H31. unfold rolloutOnce.
    by rewrite H31.
  - intros fuel sim playC bestPts Hturn Hch H31.
    pose proof (choosePlayP_Some _ _ _ _ _ Hch) as [Hin ->].
    simpl rolloutLoop. rewrite Hturn.
    rewrite bool_decide_eq_false_2 by (intros E; rewrite E in Hin; by apply elem_of_nil in Hin).
    rewrite Hch, H31. reflexivity.
  - intros fuel sim play2 bestPts bestTotal Hturn Hch H31.
    pose proof (choosePlayAI_Some _ _ _ _ _ _ Hch) as [Hin ->].
    simpl rolloutLoop. rewrite Hturn.
    rewrite bool_decide_eq_false_2 by (intros E; rewrite E in Hin; by apply elem_of_nil in Hin).
    rewrite Hch, H31. reflexivity.
Qed.

Lemma C9_rollout_thirty_one_witness :
  rolloutOnce (mkPeg [Card 0 13 Clubs; Card 1 12 Diamonds; Card 5 1 Hearts] 21
                     [Card 20 1 Clubs] [Card 2 10 Spades; Card 3 9 Clubs]
                     [] None AI false false None None)
              (Card 2 10 Spades) [Card 30 10 Hearts] = Some 3
  /\ rolloutLoop 1 (mkSim P 21 [Card 0 13 Clubs; Card 1 5 Diamonds; Card 2 6 Spades]
                          [Card 3 9 Clubs] [Card 30 10 Hearts] 0 false false AI)
     = Some (-2).
Proof.
  split.
  - exact (proj1 C9_rollout_thirty_one
             (mkPeg [Card 0 13 Clubs; Card 1 12 Diamonds; Card 5 1 Hearts] 21
                    [Card 20 1 Clubs] [Card 2 10 Spades; Card 3 9 Clubs]
                    [] None AI false false None None)
             (Card 2 10 Spades) [Card 30 10 Hearts] eq_refl).
  - exact (proj1 (proj2 C9_rollout_thirty_one) 0%nat
             (mkSim P 21 [Card 0 13 Clubs; Card 1 5 Diamonds; Card 2 6 Spades]
                    [Card 3 9 Clubs] [Card 30 10 Hearts] 0 false false AI)
             (Card 30 10 Hearts) 2 eq_refl eq_refl eq_refl).
Defined.

(** * Regression checks of the specification's examples *)

(** Cards summing to 15 score 2 at once. *)
Example peg_fifteen :
  points (applyPlay (mkPeg [Card 0 7 Clubs] 7 [Card 1 8 Hearts] [] [] None P
                           false false None None) (Card 1 8 Hearts) P) = Some 2.
Proof. reflexivity. Qed.

(** A fourth card of one rank scores 12. *)
Example peg_fourth_of_a_kind :
  isPairRunPoints [Card 0 4 Clubs; Card 1 4 Diamonds; Card 2 4 Hearts] (Card 3 4 Spades)
  = 12.
Proof. reflexivity. Qed.

(** A run is found in any order of play, and the longest tail counts once. *)
Example peg_run_of_four :
  isPairRunPoints [Card 0 4 Clubs; Card 1 6 Clubs; Card 2 3 Hearts] (Card 3 5 Hearts) = 4.
Proof. reflexivity. Qed.

(** * Further properties of the scoring engine *)

Lemma shl1_small (n : Z) : 0 <= n <= 30 -> shl1 n = 2 ^ n.
Proof.
  intros Hn. unfold shl1. rewrite Z.mod_small by lia.
  assert (2 ^ n < 2 ^ 31) by (apply Z.pow_lt_mono_r; lia).
  rewrite (proj2 (Z.leb_gt _ _)) by lia. reflexivity.
Qed.

Lemma land_pow2_eqb (m k : Z) :
  0 <= k -> (Z.land m (2 ^ k) =? 0) = negb (Z.testbit m k).
Proof.
  intros Hk. destruct (Z.testbit m k) eqn:E; simpl.
  - apply Z.eqb_neq. intros H0.
    assert (Hb : Z.testbit (Z.land m (2 ^ k)) k = true).
    { rewrite Z.land_spec, E, Z.pow2_bits_true by lia. reflexivity. }
    rewrite H0, Z.bits_0 in Hb. discriminate.
  - apply Z.eqb_eq. apply Z.bits_inj'. intros j Hj.
    rewrite Z.land_spec, Z.bits_0.
    destruct (decide (k = j)) as [<-|Hkj].
    + by rewrite E.
    + rewrite Z.pow2_bits_false by lia. apply andb_false_r.
Qed.

Lemma pick_shift (arr : list card) :
  forall mask i, 0 <= i -> i + Z.of_nat (length arr) <= 30 ->
    pick mask (i + 1) arr = pick (mask / 2) i arr.
Proof.
  induction arr as [|c arr IH]; intros mask i Hi Hlen; [reflexivity|].
  simpl length in Hlen. simpl pick.
  rewrite !shl1_small, !land_pow2_eqb by lia.
  replace (Z.testbit mask (i + 1)) with (Z.testbit (mask / 2) i).
  - rewrite IH by lia. reflexivity.
  - rewrite <- Z.div2_div, Z.div2_spec, Z.shiftr_spec by lia. reflexivity.
Qed.

Lemma pick_even (c : card) (arr : list card) (q : Z) :
  0 <= q -> Z.of_nat (length arr) <= 29 ->
  pick (2 * q) 0 (c :: arr) = pick q 0 arr.
Proof.
  intros Hq Hlen. simpl pick. change (shl1 0) with (2 ^ 0).
  rewrite land_pow2_eqb by lia. rewrite Z.testbit_even_0. simpl.
  rewrite (pick_shift arr (2 * q) 0) by lia. f_equal.
  rewrite Z.mul_comm. apply Z.div_mul. lia.
Qed.

Lemma pick_odd (c : card) (arr : list card) (q : Z) :
  0 <= q -> Z.of_nat (length arr) <= 29 ->
  pick (2 * q + 1) 0 (c :: arr) = c :: pick q 0 arr.
Proof.
  intros Hq Hlen. simpl pick. change (shl1 0) with (2 ^ 0).
  rewrite land_pow2_eqb by lia. rewrite Z.testbit_odd_0. simpl.
  rewrite (pick_shift arr (2 * q + 1) 0) by lia. f_equal. f_equal.
  rewrite Z.mul_comm, Z.div_add_l by lia. rewrite Z.div_small by lia. lia.
Qed.

Lemma sumVals_acc (l : list card) :
  forall a, foldl (fun a c => a + cardValue15 (r c)) a l
            = a + foldl (fun a c => a + cardValue15 (r c)) 0 l.
Proof.
  induction l as [|x l IH]; intros a; simpl; [lia|].
  rewrite (IH (a + _)), (IH (0 + _)). lia.
Qed.

Lemma sumVals_cons (c : card) (l : list card) :
  sumVals (c :: l) = cardValue15 (r c) + sumVals l.
Proof.
  unfold sumVals. simpl. rewrite (sumVals_acc l (0 + _)). lia.
Qed.

Lemma sumFrom_ext (f g : nat -> Z) (n : nat) :
  forall a, (forall k, (a <= k < a + n)%nat -> f k = g k) ->
    sumFrom f a n = sumFrom g a n.
Proof.
  induction n as [|n IH]; intros a H; simpl; [reflexivity|].
  rewrite (H a) by lia. rewrite (IH (S a)); [reflexivity|].
  intros k Hk. apply H. lia.
Qed.

Lemma sumFrom_plus (f g : nat -> Z) (n : nat) :
  forall a, sumFrom (fun k => f k + g k) a n = sumFrom f a n + sumFrom g a n.
Proof. induction n as [|n IH]; intros a; simpl; [reflexivity|]. rewrite IH. lia. Qed.

Lemma sumFrom_double (g : nat -> Z) (n : nat) :
  forall a, sumFrom g (2 * a) (2 * n)
            = sumFrom (fun q => g (2 * q)%nat + g (2 * q + 1)%nat) a n.
Proof.
  induction n as [|n IH]; intros a; [reflexivity|].
  replace (2 * S n)%nat with (S (S (2 * n))) by lia. cbn [sumFrom].
  replace (S (S (2 * a))) with (2 * S a)%nat by lia. rewrite IH.
  replace (S (2 * a)) with (2 * a + 1)%nat by lia. lia.
Qed.

Lemma masks_count (arr : list card) :
  forall t, (length arr <= 30)%nat ->
    sumFrom (hit t arr) 0 (2 ^ length arr) = subsetCount t arr.
Proof.
  induction arr as [|c arr IH]; intros t Hlen.
  - simpl. unfold hit. simpl. unfold sumVals. simpl.
    destruct t; reflexivity.
  - simpl length in *. rewrite Nat.pow_succ_r'.
    change 0%nat with (2 * 0)%nat at 1.
    rewrite (sumFrom_double (hit t (c :: arr)) (2 ^ length arr) 0).
    rewrite (sumFrom_ext _ (fun q => hit t arr q + hit (t - cardValue15 (r c)) arr q)).
    + rewrite sumFrom_plus, !IH by lia. reflexivity.
    + intros q _. unfold hit.
      rewrite !Nat2Z.inj_add, !Nat2Z.inj_mul. change (Z.of_nat 2) with 2.
      change (Z.of_nat 1) with 1.
      rewrite pick_even, pick_odd by lia. rewrite sumVals_cons.
      f_equal. destruct (_ + sumVals _ =? t) eqn:E1;
        destruct (sumVals _ =? t - _) eqn:E2; try reflexivity;
        rewrite ?Z.eqb_eq, ?Z.eqb_neq in *; lia.
Qed.

Lemma pick_zero (arr : list card) : forall i, pick 0 i arr = [].
Proof. induction arr as [|c arr IH]; intros i; simpl; [reflexivity|apply IH]. Qed.

Lemma count15_fold (arr : list card) (n : nat) :
  forall a acc,
    foldl (fun pts subset =>
             let sum := foldl (fun a c => a + cardValue15 (r c)) 0 subset in
             if sum =? 15 then pts + 2 else pts)
          acc ((fun k => pick (Z.of_nat k) 0 arr) <$> seq a n)
    = acc + 2 * sumFrom (hit 15 arr) a n.
Proof.
  induction n as [|n IH]; intros a acc; simpl; [lia|].
  rewrite IH. unfold hit at 2. unfold sumVals.
  destruct (_ =? 15); lia.
Qed.

Lemma count15_subsets_aux (cards : list card) :
  (length cards <= 30)%nat -> count15 cards = 2 * subsetCount 15 cards.
Proof.
  intros Hlen. unfold count15, combos.
  rewrite shl1_small by lia. rewrite count15_fold, Z.add_0_l. f_equal.
  rewrite <- masks_count by lia.
  assert (Hpow : (0 < 2 ^ length cards)%nat).
  { apply Nat.neq_0_lt_0, Nat.pow_nonzero. lia. }
  replace (Z.to_nat (2 ^ Z.of_nat (length cards) - 1))
    with (Nat.pred (2 ^ length cards)).
  - destruct (2 ^ length cards)%nat as [|m] eqn:E; [lia|]. simpl.
    assert (H0 : hit 15 cards 0 = 0).
    { unfold hit. simpl Z.of_nat. rewrite pick_zero. reflexivity. }
    rewrite H0. reflexivity.
  - rewrite <- (Nat2Z.inj_pow 2). lia.
Qed.

(** X1. Every way of choosing cards that add up to 15 is counted once, for 2
    points each (groups of at most 30 cards, the range in which [1 << n] is
    [2^n]). *)
Theorem count15_subsets (cards : list card) :
  (length cards <= 30)%nat -> count15 cards = 2 * subsetCount 15 cards.
Proof. exact (count15_subsets_aux cards). Qed.

Lemma count15_subsets_witness :
  count15 [Card 0 5 Clubs; Card 1 10 Hearts; Card 2 11 Spades]
  = 2 * subsetCount 15 [Card 0 5 Clubs; Card 1 10 Hearts; Card 2 11 Spades].
Proof.
  apply (count15_subsets [Card 0 5 Clubs; Card 1 10 Hearts; Card 2 11 Spades]).
  simpl. lia.
Defined.

Lemma subsetCount_perm (cs1 cs2 : list card) :
  cs1 ≡ₚ cs2 -> forall t, subsetCount t cs1 = subsetCount t cs2.
Proof.
  induction 1 as [|x l1 l2 _ IH|x y l|l1 l2 l3 _ IH1 _ IH2]; intros t; simpl.
  - reflexivity.
  - by rewrite !IH.
  - replace (t - cardValue15 (r x) - cardValue15 (r y))
      with (t - cardValue15 (r y) - cardValue15 (r x)) by lia. lia.
  - by rewrite IH1.
Qed.

(** The fifteens do not depend on the order of the cards. *)
Lemma count15_perm (cs1 cs2 : list card) :
  (length cs1 <= 30)%nat -> cs1 ≡ₚ cs2 -> count15 cs1 = count15 cs2.
Proof.
  intros Hlen Hp. rewrite !count15_subsets_aux by (by rewrite <- ?Hp).
  by rewrite (subsetCount_perm _ _ Hp).
Qed.

(** X3. [1 << 31] is negative and [1 << 32] is 1: for 31 or 32 cards the mask
    loop of [combos] does not run, and no fifteen is counted. *)
Theorem combos_overflow (cards : list card) :
  length cards = 31%nat \/ length cards = 32%nat ->
  combos cards = [] /\ count15 cards = 0.
Proof.
  intros Hlen. assert (Hc : combos cards = []).
  { unfold combos. destruct Hlen as [-> | ->]; reflexivity. }
  split; [exact Hc|]. unfold count15. by rewrite Hc.
Qed.

Lemma combos_overflow_witness :
  count15 (replicate 31 (Card 0 5 Clubs)) = 0.
Proof.
  refine (proj2 (combos_overflow (replicate 31 (Card 0 5 Clubs)) _)).
  left. reflexivity.
Defined.

(** X2. There is one subset per mask: [2^n - 1] of them for up to 30 cards. *)
Theorem combos_length (cards : list card) :
  (length cards <= 30)%nat ->
  Z.of_nat (length (combos cards)) = 2 ^ Z.of_nat (length cards) - 1.
Proof.
  intros Hlen. unfold combos. rewrite length_fmap, length_seq.
  rewrite shl1_small by lia.
  assert (0 < 2 ^ Z.of_nat (length cards)) by (apply Z.pow_pos_nonneg; lia). lia.
Qed.

Lemma combos_length_witness :
  Z.of_nat (length (combos [Card 0 5 Clubs; Card 1 5 Diamonds; Card 2 5 Hearts;
                            Card 3 10 Spades; Card 4 11 Clubs])) = 31.
Proof.
  refine (combos_length [Card 0 5 Clubs; Card 1 5 Diamonds; Card 2 5 Hearts;
                         Card 3 10 Spades; Card 4 11 Clubs] _).
  simpl. lia.
Defined.

Lemma byRank_cons (c : card) (cs : list card) :
  byRank (c :: cs) = bump (byRank cs) (r c).
Proof.
  rewrite !byRank_ranks, fmap_cons.
  rewrite (foldl_bump_perm (r c :: (r <$> cs)) ((r <$> cs) ++ [r c])).
  - by rewrite foldl_app.
  - apply Permutation_cons_append.
Qed.

Lemma occ_cons (k : Z) (c : card) (cs : list card) :
  occ k (c :: cs) = (if decide (r c = k) then 1 else 0) + occ k cs.
Proof.
  unfold occ. rewrite filter_cons. destruct (decide (r c = k)); simpl length; lia.
Qed.

Lemma occ_nonneg (k : Z) (cs : list card) : 0 <= occ k cs.
Proof. unfold occ. lia. Qed.

(** The dictionary holds, for each rank present, the number of its cards. *)
Lemma byRank_lookup (cs : list card) (k : Z) :
  byRank cs !! k = if decide (occ k cs = 0) then None else Some (occ k cs).
Proof.
  induction cs as [|c cs IH].
  - reflexivity.
  - rewrite byRank_cons, occ_cons. unfold bump.
    pose proof (occ_nonneg k cs) as Hk.
    destruct (decide (r c = k)) as [->|Hne].
    + rewrite lookup_insert_eq, IH.
      destruct (decide (occ k cs = 0)) as [E|E]; simpl.
      * rewrite E. reflexivity.
      * rewrite decide_False by lia. f_equal. lia.
    + rewrite lookup_insert_ne by done. rewrite IH. simpl.
      destruct (decide (occ k cs = 0)) as [E|E].
      * by rewrite decide_True by lia.
      * by rewrite decide_False by lia.
Qed.

Lemma byRank_default (cs : list card) (k : Z) :
  default 0 (byRank cs !! k) = occ k cs.
Proof. rewrite byRank_lookup. case_decide; simpl; lia. Qed.

Lemma byRank_positive (cs : list card) (k n : Z) :
  byRank cs !! k = Some n -> 1 <= n.
Proof.
  rewrite byRank_lookup. pose proof (occ_nonneg k cs).
  case_decide; [discriminate|]. intros [= <-]. lia.
Qed.

Lemma pair_term (n pts : Z) :
  1 <= n -> (if 2 <=? n then pts + n * (n - 1) / 2 * 2 else pts) = pts + n * (n - 1).
Proof.
  intros Hn. destruct (2 <=? n) eqn:E.
  - f_equal. destruct (Z.Even_or_Odd n) as [[q ->]|[q ->]].
    + replace (2 * q * (2 * q - 1)) with (q * (2 * q - 1) * 2) by lia.
      by rewrite Z.div_mul.
    + replace ((2 * q + 1) * (2 * q + 1 - 1)) with ((2 * q + 1) * q * 2) by lia.
      by rewrite Z.div_mul.
  - apply Z.leb_gt in E. replace n with 1 by lia. lia.
Qed.

Lemma pairsOf_bump (m : gmap Z Z) (k : Z) :
  (forall j n, m !! j = Some n -> 1 <= n) ->
  pairsOf (bump m k) = pairsOf m + 2 * default 0 (m !! k).
Proof.
  intros Hpos. unfold pairsOf, bump.
  assert (Hcomm : forall (j1 j2 z1 z2 y : Z),
    (if 2 <=? z1 then (if 2 <=? z2 then y + z2 * (z2 - 1) / 2 * 2 else y)
                      + z1 * (z1 - 1) / 2 * 2
     else (if 2 <=? z2 then y + z2 * (z2 - 1) / 2 * 2 else y))
    = (if 2 <=? z2 then (if 2 <=? z1 then y + z1 * (z1 - 1) / 2 * 2 else y)
                        + z2 * (z2 - 1) / 2 * 2
       else (if 2 <=? z1 then y + z1 * (z1 - 1) / 2 * 2 else y))).
  { intros. destruct (2 <=? z1), (2 <=? z2); lia. }
  destruct (m !! k) as [n|] eqn:E; simpl.
  - pose proof (Hpos _ _ E) as Hn.
    rewrite <- (insert_delete_eq m k (n + 1)).
    rewrite map_fold_insert_L; [|intros; apply (Hcomm 0 0)|apply lookup_delete_eq].
    rewrite (map_fold_delete_L _ _ k n m); [|intros; apply (Hcomm 0 0)|exact E].
    rewrite !pair_term by lia. lia.
  - rewrite map_fold_insert_L; [|intros; apply (Hcomm 0 0)|exact E].
    simpl. lia.
Qed.

Lemma countPairs_pairs_aux (cards : list card) :
  countPairs cards = 2 * pairCount cards.
Proof.
  change (countPairs cards) with (pairsOf (byRank cards)).
  induction cards as [|c cs IH]; [reflexivity|].
  rewrite byRank_cons, pairsOf_bump by apply byRank_positive.
  rewrite IH, byRank_default. simpl pairCount. lia.
Qed.

(** X4. [countPairs] gives 2 points for each pair of cards of equal rank. *)
Theorem countPairs_pairs (cards : list card) :
  countPairs cards = 2 * pairCount cards.
Proof. exact (countPairs_pairs_aux cards). Qed.

Lemma hull_counts (cards : list card) :
  forall (m : gmap Z Z) (a b c : Z),
    m !! 7 = Some a -> m !! 8 = Some b -> m !! 9 = Some c ->
    (forall k, k <> 7 -> k <> 8 -> k <> 9 -> m !! k = None) ->
    let m' := foldl (fun m c => match m !! r c with
                                | Some n => <[r c := n + 1]> m
                                | None => m
                                end) m cards in
    m' !! 7 = Some (a + occ 7 cards) /\ m' !! 8 = Some (b + occ 8 cards)
    /\ m' !! 9 = Some (c + occ 9 cards).
Proof.
  induction cards as [|x cards IH]; intros m a b c H7 H8 H9 Hrest; simpl.
  - unfold occ. simpl. rewrite !Z.add_0_r. done.
  - rewrite !occ_cons.
    destruct (decide (r x = 7)) as [E|N7]; [|destruct (decide (r x = 8)) as [E|N8];
      [|destruct (decide (r x = 9)) as [E|N9]]].
    + rewrite E, H7. rewrite ?decide_False by lia.
      edestruct (IH (<[7 := a + 1]> m) (a + 1) b c) as (R7 & R8 & R9);
        [apply lookup_insert_eq|by rewrite lookup_insert_ne|by rewrite lookup_insert_ne| |].
      * intros k ? ? ?. rewrite lookup_insert_ne by done. by apply Hrest.
      * simpl in R7, R8, R9. rewrite R7, R8, R9. repeat split; f_equal; lia.
    + rewrite E, H8. rewrite ?decide_False by lia.
      edestruct (IH (<[8 := b + 1]> m) a (b + 1) c) as (R7 & R8 & R9);
        [by rewrite lookup_insert_ne|apply lookup_insert_eq|by rewrite lookup_insert_ne| |].
      * intros k ? ? ?. rewrite lookup_insert_ne by done. by apply Hrest.
      * simpl in R7, R8, R9. rewrite R7, R8, R9. repeat split; f_equal; lia.
    + rewrite E, H9. rewrite ?decide_False by lia.
      edestruct (IH (<[9 := c + 1]> m) a b (c + 1)) as (R7 & R8 & R9);
        [by rewrite lookup_insert_ne|by rewrite lookup_insert_ne|apply lookup_insert_eq| |].
      * intros k ? ? ?. rewrite lookup_insert_ne by done. by apply Hrest.
      * simpl in R7, R8, R9. rewrite R7, R8, R9. repeat split; f_equal; lia.
    + rewrite (Hrest (r x)) by done.
      destruct (IH m a b c H7 H8 H9 Hrest) as (R7 & R8 & R9).
      simpl in R7, R8, R9. rewrite R7, R8, R9. repeat split; f_equal; lia.
Qed.

Lemma hull798Bonus_counts_aux (cards : list card) :
  hull798Bonus cards = 3 * (occ 7 cards * occ 8 cards * occ 9 cards).
Proof.
  unfold hull798Bonus. simpl negb. cbv iota.
  edestruct (hull_counts cards (<[7 := 0]> (<[8 := 0]> (<[9 := 0]> ∅))) 0 0 0)
    as (R7 & R8 & R9); [reflexivity|reflexivity|reflexivity| |].
  - intros k ? ? ?. by rewrite !lookup_insert_ne, lookup_empty by done.
  - simpl in R7, R8, R9. cbv zeta. rewrite R7, R8, R9. simpl. reflexivity.
Qed.

(** X6. The house bonus is 3 points for every way to pick a 7, an 8 and a 9. *)
Theorem hull798Bonus_counts (cards : list card) :
  hull798Bonus cards = 3 * (occ 7 cards * occ 8 cards * occ 9 cards).
Proof. exact (hull798Bonus_counts_aux cards). Qed.

Lemma occ_perm (k : Z) (cs1 cs2 : list card) : cs1 ≡ₚ cs2 -> occ k cs1 = occ k cs2.
Proof. intros Hp. unfold occ. by rewrite Hp. Qed.

Lemma flushPoints_perm (h1 h2 : list card) (strt : option card) (isCrib : bool) :
  h1 ≡ₚ h2 -> flushPoints h1 strt isCrib = flushPoints h2 strt isCrib.
Proof.
  intros Hp. destruct h1 as [|c0 h1].
  { apply Permutation_nil_l in Hp. by subst. }
  assert (Hne2 : h2 <> []).
  { intros ->. by apply Permutation_nil_r in Hp. }
  destruct (decide (allOfSuit (s c0) (c0 :: h1))) as [Hall|Hno].
  - assert (Hall2 : allOfSuit (s c0) h2) by (unfold allOfSuit; by rewrite <- Hp).
    destruct (allSameSuit_true (c0 :: h1) (s c0)) as [E1 F1]; [done|done|].
    destruct (allSameSuit_true h2 (s c0)) as [E2 F2]; [done|done|].
    unfold flushPoints. by rewrite E1, E2, F1, F2.
  - assert (Hno1 : forall su, ~ allOfSuit su (c0 :: h1)).
    { intros su Hsu. apply Hno. pose proof (Forall_inv Hsu) as H0. simpl in H0.
      by rewrite H0. }
    assert (Hno2 : forall su, ~ allOfSuit su h2).
    { intros su Hsu. apply (Hno1 su). unfold allOfSuit. by rewrite Hp. }
    unfold flushPoints.
    by rewrite (allSameSuit_false _ Hno1), (allSameSuit_false _ Hno2).
Qed.

Lemma existsb_perm {A} (f : A -> bool) (l1 l2 : list A) :
  l1 ≡ₚ l2 -> existsb f l1 = existsb f l2.
Proof.
  induction 1 as [|x l1 l2 _ IH|x y l|l1 l2 l3 _ IH1 _ IH2]; simpl.
  - reflexivity.
  - by rewrite IH.
  - destruct (f x), (f y); reflexivity.
  - by rewrite IH1.
Qed.

Lemma knobsPoints_perm (h1 h2 : list card) (strt : option card) :
  h1 ≡ₚ h2 -> knobsPoints h1 strt = knobsPoints h2 strt.
Proof.
  intros Hp. unfold knobsPoints. destruct strt as [st|]; [|reflexivity].
  by rewrite (existsb_perm _ _ _ Hp).
Qed.

Lemma hull798Bonus_perm (cs1 cs2 : list card) :
  cs1 ≡ₚ cs2 -> hull798Bonus cs1 = hull798Bonus cs2.
Proof.
  intros Hp. rewrite !hull798Bonus_counts_aux.
  by rewrite !(occ_perm _ _ _ Hp).
Qed.

(** X7. The score of a hand does not depend on the order in which its cards are
    held (hands of at most 29 cards, so that the fifteens are counted). *)
Theorem handPoints_perm (h1 h2 : list card) (strt : card) (isCrib : bool) :
  (length h1 <= 29)%nat -> h1 ≡ₚ h2 ->
  handPoints h1 strt isCrib = handPoints h2 strt isCrib.
Proof.
  intros Hlen Hp.
  assert (Hall : h1 ++ [strt] ≡ₚ h2 ++ [strt]) by (by rewrite Hp).
  assert (Hr : r <$> (h1 ++ [strt]) ≡ₚ r <$> (h2 ++ [strt])) by (by rewrite Hall).
  unfold handPoints.
  rewrite (countRuns_perm _ _ Hr), (countPairs_perm _ _ Hr).
  assert (Hlen' : (length (h1 ++ [strt]) <= 30)%nat).
  { rewrite length_app. simpl. lia. }
  rewrite (count15_perm _ _ Hlen' Hall).
  rewrite (flushPoints_perm _ _ _ _ Hp), (knobsPoints_perm _ _ _ Hp).
  by rewrite (hull798Bonus_perm _ _ Hall).
Qed.

Lemma handPoints_perm_witness :
  handPoints [Card 0 7 Clubs; Card 1 8 Hearts; Card 2 9 Spades; Card 3 11 Diamonds]
             (Card 4 4 Diamonds) false
  = handPoints [Card 3 11 Diamonds; Card 2 9 Spades; Card 0 7 Clubs; Card 1 8 Hearts]
               (Card 4 4 Diamonds) false.
Proof.
  refine (handPoints_perm
            [Card 0 7 Clubs; Card 1 8 Hearts; Card 2 9 Spades; Card 3 11 Diamonds]
            [Card 3 11 Diamonds; Card 2 9 Spades; Card 0 7 Clubs; Card 1 8 Hearts]
            (Card 4 4 Diamonds) false _ _).
  - simpl. lia.
  - etransitivity; [apply Permutation_rev|]. simpl.
    do 2 apply perm_skip. apply perm_swap.
Defined.

Lemma sumFrom_nonneg (g : nat -> Z) (n : nat) :
  (forall k, 0 <= g k) -> forall a, 0 <= sumFrom g a n.
Proof.
  intros Hg. induction n as [|n IH]; intros a; simpl; [lia|].
  specialize (IH (S a)). specialize (Hg a). lia.
Qed.

Lemma count15_nonneg (cards : list card) : 0 <= count15 cards.
Proof.
  unfold count15, combos. rewrite count15_fold.
  assert (0 <= sumFrom (hit 15 cards) 1
                 (Z.to_nat (shl1 (Z.of_nat (length cards)) - 1))).
  { apply sumFrom_nonneg. intros k. unfold hit. case_match; lia. }
  lia.
Qed.

Lemma pairCount_nonneg (cards : list card) : 0 <= pairCount cards.
Proof.
  induction cards as [|c cs IH]; simpl; [lia|].
  pose proof (occ_nonneg (r c) cs). lia.
Qed.

Lemma mult_nonneg (m : gmap Z Z) (l : list Z) :
  (forall k, 0 <= default 0 (m !! k)) ->
  forall acc, 0 <= acc -> 0 <= foldl (fun acc rk => acc * default 0 (m !! rk)) acc l.
Proof.
  intros Hm. induction l as [|x l IH]; intros acc Hacc; simpl; [done|].
  apply IH. specialize (Hm x). nia.
Qed.

Lemma countRunsLoop_nonneg (m : gmap Z Z) (fuel : nat) :
  (forall k, 0 <= default 0 (m !! k)) ->
  forall unique bestLen tot v,
    0 <= tot -> countRunsLoop fuel m unique bestLen tot = Some v -> 0 <= v.
Proof.
  intros Hm. induction fuel as [|fuel IH]; intros unique bestLen tot v Ht; [discriminate|].
  destruct unique as [|x l]; simpl; [by intros [= <-]|].
  destruct (runSpan x l) as [run rest].
  pose proof (mult_nonneg m (x :: run) Hm 1 ltac:(lia)) as Hmult.
  simpl in Hmult.
  assert (0 <= Z.of_nat (S (length run))) by lia.
  repeat case_match; intros Hv; (eapply IH; [|exact Hv]); nia.
Qed.

Lemma handPoints_nonneg_aux (hand4 : list card) (strt : card) (isCrib : bool) :
  exists v, handPoints hand4 strt isCrib = Some v /\ 0 <= v.
Proof.
  unfold handPoints. set (all := hand4 ++ [strt]).
  destruct (countRuns_total all) as [runs Hruns]. rewrite Hruns. simpl.
  eexists. split; [reflexivity|].
  assert (0 <= runs).
  { unfold countRuns in Hruns. eapply countRunsLoop_nonneg; [|reflexivity|exact Hruns].
    intros k. rewrite byRank_default. apply occ_nonneg. }
  pose proof (count15_nonneg all). pose proof (pairCount_nonneg all).
  rewrite countPairs_pairs_aux, hull798Bonus_counts_aux.
  pose proof (occ_nonneg 7 all). pose proof (occ_nonneg 8 all).
  pose proof (occ_nonneg 9 all).
  assert (0 <= flushPoints hand4 (Some strt) isCrib).
  { unfold flushPoints. repeat case_match; lia. }
  assert (0 <= knobsPoints hand4 (Some strt)).
  { unfold knobsPoints. case_match; lia. }
  unfold knobsPoints in *.
  assert (0 <= occ 7 all * occ 8 all * occ 9 all) by (repeat apply Z.mul_nonneg_nonneg; lia).
  lia.
Qed.

(** X8. Every component of the score, and so the score, is a number that is not
    negative. *)
Theorem handPoints_nonneg (hand4 : list card) (strt : card) (isCrib : bool) :
  exists v, handPoints hand4 strt isCrib = Some v /\ 0 <= v.
Proof. exact (handPoints_nonneg_aux hand4 strt isCrib). Qed.

(** * The generator, the shuffle and the deck *)

Lemma seededRng_range (seed : Z) :
  0 <= (seededRng seed).1 < 2 ^ 32 /\ (seededRng seed).2 = nextSeed seed.
Proof.
  unfold seededRng. simpl. split; [|reflexivity].
  unfold toUint32. apply Z.mod_pos_bound. lia.
Qed.

Lemma roundDouble_exact (z : Z) : Z.abs z < 2 ^ 53 -> roundDouble z = z.
Proof. intros H. unfold roundDouble. by rewrite (proj2 (Z.ltb_lt _ _) H). Qed.

Lemma iter_nextSeed_shift (i : nat) (seed : Z) :
  Nat.iter i nextSeed (nextSeed seed) = Nat.iter (S i) nextSeed seed.
Proof. induction i as [|i IH]; [reflexivity|]. simpl in *. by rewrite IH. Qed.

(** While the state stays within the exact range of a double, each call adds
    the constant. *)
Lemma iter_nextSeed_exact (i : nat) :
  forall seed, - 2 ^ 53 < seed -> seed + Z.of_nat i * 0x6D2B79F5 < 2 ^ 53 ->
    Nat.iter i nextSeed seed = seed + Z.of_nat i * 0x6D2B79F5.
Proof.
  induction i as [|i IH]; intros seed Hlo Hhi; [simpl; lia|].
  rewrite <- iter_nextSeed_shift.
  assert (Hn : nextSeed seed = seed + 0x6D2B79F5).
  { unfold nextSeed. apply roundDouble_exact. lia. }
  rewrite Hn, IH by lia. lia.
Qed.

(** The index drawn for position [i] is one of [0 .. i]. *)
Lemma shuffleIndex_bound (k : Z) (i : nat) :
  0 <= k < 2 ^ 32 -> (shuffleIndex k i <= i)%nat.
Proof.
  intros Hk. unfold shuffleIndex.
  assert (k * (Z.of_nat i + 1) / 2 ^ 32 < Z.of_nat i + 1).
  { apply Z.div_lt_upper_bound; [lia|]. nia. }
  assert (0 <= k * (Z.of_nat i + 1) / 2 ^ 32).
  { apply Z.div_pos; [nia|lia]. }
  lia.
Qed.

Lemma swap_perm {A} (a : list A) (i j : nat) :
  (i < length a)%nat -> (j < length a)%nat ->
  exists a', swap a i j = Some a' /\ a' ≡ₚ a /\ length a' = length a.
Proof.
  intros Hi Hj. unfold swap.
  destruct (lookup_lt_is_Some_2 _ _ Hi) as [x Hx].
  destruct (lookup_lt_is_Some_2 _ _ Hj) as [y Hy].
  rewrite Hx, Hy. simpl. eexists. split; [reflexivity|].
  split; [by apply Permutation_insert_swap|by rewrite !length_insert].
Qed.

Lemma shuffleLoop_perm {A} (i : nat) :
  forall (a : list A) (seed : Z), (i < length a)%nat ->
    exists a', shuffleLoop i a seed = Some (a', Nat.iter i nextSeed seed)
               /\ a' ≡ₚ a.
Proof.
  induction i as [|i IH]; intros a seed Hi.
  - exists a. split; reflexivity.
  - cbn [shuffleLoop]. pose proof (seededRng_range seed) as [Hk Hs].
    destruct (seededRng seed) as [k seed']. simpl in Hk, Hs.
    pose proof (shuffleIndex_bound k (S i) Hk) as Hj.
    destruct (swap_perm a (S i) (shuffleIndex k (S i))) as (a1 & -> & Hp & Hl); [lia|lia|].
    simpl. destruct (IH a1 seed') as (a' & -> & Hp'); [lia|].
    exists a'. split; [|by rewrite Hp']. do 2 f_equal.
    rewrite Hs. apply iter_nextSeed_shift.
Qed.

Lemma shuffle_permutation_aux {A} (arr : list A) (seed : Z) :
  exists a', shuffle arr seed
             = Some (a', Nat.iter (length arr - 1) nextSeed seed)
             /\ a' ≡ₚ arr.
Proof.
  unfold shuffle. destruct arr as [|x arr].
  - exists []. split; reflexivity.
  - apply shuffleLoop_perm. simpl. lia.
Qed.

(** X10. For an array of fewer than [2^21] elements and a generator state of
    magnitude below [2^1000], [shuffle] returns a rearrangement of its
    argument: no index is ever drawn outside the array and nothing is lost
    or duplicated.  While the state stays within the exact range of a double
    (below [2^53]) it has advanced by [0x6D2B79F5] once per position but the
    first. *)
Theorem shuffle_permutation {A} (arr : list A) (seed : Z) :
  Z.abs seed < 2 ^ 1000 -> Z.of_nat (length arr) < 2 ^ 21 ->
  exists a' seed',
    shuffle arr seed = Some (a', seed')
    /\ a' ≡ₚ arr
    /\ (- 2 ^ 53 < seed ->
        seed + Z.of_nat (length arr - 1) * 0x6D2B79F5 < 2 ^ 53 ->
        seed' = seed + Z.of_nat (length arr - 1) * 0x6D2B79F5).
Proof.
  intros _ _. destruct (shuffle_permutation_aux arr seed) as (a' & Hs & Hp).
  eexists a', _. split; [exact Hs|]. split; [exact Hp|].
  intros Hlo Hhi. by apply iter_nextSeed_exact.
Qed.

Lemma shuffle_permutation_witness :
  exists a' seed',
    shuffle [Card 0 1 Clubs; Card 1 5 Hearts; Card 2 12 Spades; Card 3 9 Diamonds] 42
    = Some (a', seed')
    /\ a' ≡ₚ [Card 0 1 Clubs; Card 1 5 Hearts; Card 2 12 Spades; Card 3 9 Diamonds]
    /\ seed' = 42 + 3 * 0x6D2B79F5.
Proof.
  destruct (shuffle_permutation
              [Card 0 1 Clubs; Card 1 5 Hearts; Card 2 12 Spades; Card 3 9 Diamonds] 42)
    as (a' & seed' & E & Hp & Hs).
  - apply Z.ltb_lt. vm_compute. reflexivity.
  - apply Z.ltb_lt. vm_compute. reflexivity.
  - exists a', seed'. split; [exact E|]. split; [exact Hp|].
    apply Hs; apply Z.ltb_lt; vm_compute; reflexivity.
Defined.

(** The generator past the exact range: from a state of [2^53] the state is
    rounded to an even number and the first three draws are these. *)
Example seededRng_rounds :
  let '(k1, s1) := seededRng (2 ^ 53) in
  let '(k2, s2) := seededRng s1 in
  let '(k3, _) := seededRng s2 in
  s1 = 2 ^ 53 + 0x6D2B79F4 /\ [k1; k2; k3] = [3850105811; 210922997; 429257462].
Proof. vm_compute. split; reflexivity. Qed.

Lemma makeDeck_faces (base : nat) : face <$> makeDeck base = face <$> makeDeck 0.
Proof. reflexivity. Qed.

Lemma makeDeck_complete_aux (base : nat) :
  length (makeDeck base) = 52%nat
  /\ NoDup (face <$> makeDeck base)
  /\ NoDup (oid <$> makeDeck base)
  /\ (forall c, c ∈ makeDeck base -> 1 <= r c <= 13)
  /\ (forall rk su, 1 <= rk <= 13 -> (rk, su) ∈ face <$> makeDeck base).
Proof.
  split; [reflexivity|]. split; [|split; [|split]].
  - rewrite makeDeck_faces. apply (bool_decide_unpack _). vm_compute. exact I.
  - assert (Ho : oid <$> makeDeck base = (fun i => (base + i)%nat) <$> seq 0 52)
      by reflexivity.
    rewrite Ho. apply NoDup_fmap_2; [intros i j; lia|apply NoDup_seq].
  - intros c Hc.
    assert (Hall : Forall (fun f => 1 <= f.1 <= 13) (face <$> makeDeck base)).
    { rewrite makeDeck_faces. apply (bool_decide_unpack _). vm_compute. exact I. }
    rewrite Forall_fmap, Forall_forall in Hall. apply (Hall c Hc).
  - intros rk su Hrk. rewrite makeDeck_faces.
    assert (Hcases : rk = 1 \/ rk = 2 \/ rk = 3 \/ rk = 4 \/ rk = 5 \/ rk = 6 \/ rk = 7
                     \/ rk = 8 \/ rk = 9 \/ rk = 10 \/ rk = 11 \/ rk = 12 \/ rk = 13) by lia.
    destruct su; repeat (destruct Hcases as [->|Hcases]); try subst rk;
      apply (bool_decide_unpack _); vm_compute; exact I.
Qed.

(** X9. [makeDeck] builds 52 fresh card objects, one for every rank from 1 to 13
    in every suit, and no face twice. *)
Theorem makeDeck_complete (base : nat) :
  length (makeDeck base) = 52%nat
  /\ NoDup (face <$> makeDeck base)
  /\ NoDup (oid <$> makeDeck base)
  /\ (forall c, c ∈ makeDeck base -> 1 <= r c <= 13)
  /\ (forall rk su, 1 <= rk <= 13 -> (rk, su) ∈ face <$> makeDeck base).
Proof. exact (makeDeck_complete_aux base). Qed.

Lemma cardsEqual_face (a b : card) : cardsEqual a b = true <-> face a = face b.
Proof.
  unfold cardsEqual, face. rewrite andb_true_iff, Z.eqb_eq, bool_decide_eq_true.
  split; [intros [-> ->]; reflexivity|intros [= -> ->]; done].
Qed.

(** [minus] keeps, in order, exactly the cards of [set] whose face is the face
    of no card of [rem]. *)
Lemma minus_filter (set rem : list card) :
  minus set rem = filter (fun c => face c ∉ face <$> rem) set.
Proof.
  unfold minus. apply list_filter_iff. intros c.
  rewrite Is_true_true, negb_true_iff, <- not_true_iff_false, existsb_exists.
  rewrite list_elem_of_fmap. split; intros H1 H2; apply H1.
  - destruct H2 as (x & Hf & Hx). exists x. split; [by apply list_elem_of_In|].
    by apply cardsEqual_face.
  - destruct H2 as (x & Hx & Hf). exists x.
    split; [symmetry; by apply cardsEqual_face|by apply list_elem_of_In].
Qed.

(** X11. Taking known cards out of a deck: when the known cards have distinct faces
    that all occur in the deck, and the deck has no face twice, exactly as
    many cards go as are known. *)
Theorem minus_length (dk rem : list card) :
  NoDup (face <$> dk) -> NoDup (face <$> rem) ->
  (forall x, x ∈ rem -> face x ∈ face <$> dk) ->
  (length (minus dk rem) + length rem = length dk)%nat.
Proof.
  intros Hdk Hrem Hsub. rewrite minus_filter.
  pose proof (filter_app_complement (fun c => face c ∈ face <$> rem) dk) as Hsplit.
  apply Permutation_length in Hsplit. rewrite length_app in Hsplit.
  assert (Hin : face <$> filter (fun c => face c ∈ face <$> rem) dk ≡ₚ face <$> rem).
  { apply NoDup_Permutation; [|exact Hrem|].
    - eapply sublist_NoDup; [exact Hdk|]. apply fmap_sublist, sublist_filter.
    - intros f. rewrite list_elem_of_fmap. split.
      + intros (c & -> & Hc). apply list_elem_of_filter in Hc. tauto.
      + intros Hf. pose proof Hf as Hf'. apply list_elem_of_fmap in Hf'.
        destruct Hf' as (x & -> & Hx).
        pose proof (Hsub x Hx) as Hd. apply list_elem_of_fmap in Hd.
        destruct Hd as (c & Hfc & Hc). exists c. split; [done|].
        apply list_elem_of_filter. split; [by rewrite <- Hfc|done]. }
  apply Permutation_length in Hin. rewrite !length_fmap in Hin.
  lia.
Qed.

Lemma minus_length_witness :
  (length (minus (makeDeck 0) [Card 90 5 Hearts; Card 91 11 Spades]) + 2 = 52)%nat.
Proof.
  refine (minus_length (makeDeck 0) [Card 90 5 Hearts; Card 91 11 Spades] _ _ _).
  - apply (proj1 (proj2 (makeDeck_complete_aux 0))).
  - apply (bool_decide_unpack _). vm_compute. exact I.
  - intros x Hx. apply (proj2 (proj2 (proj2 (proj2 (makeDeck_complete_aux 0))))).
    repeat (apply elem_of_cons in Hx; destruct Hx as [->|Hx]); simpl; try lia.
    by apply elem_of_nil in Hx.
Defined.

(** * The round handlers *)

Lemma pop_snoc (d : list card) (x : card) : Round.pop (d ++ [x]) = Some (x, d).
Proof.
  unfold Round.pop. rewrite last_snoc. simpl. rewrite length_app. simpl.
  replace (length d + 1 - 1)%nat with (length d) by lia.
  by rewrite take_app_length.
Qed.

Lemma pop_Some (d d1 : list card) (x : card) :
  Round.pop d = Some (x, d1) -> d = d1 ++ [x].
Proof.
  unfold Round.pop. destruct (last d) as [y|] eqn:E; [|discriminate].
  apply last_Some in E. destruct E as [l' ->]. simpl.
  rewrite length_app. simpl. replace (length l' + 1 - 1)%nat with (length l') by lia.
  rewrite take_app_length. by intros [= -> ->].
Qed.

Lemma pop_nonempty (d : list card) :
  d <> [] -> exists x d1, Round.pop d = Some (x, d1) /\ d = d1 ++ [x].
Proof.
  intros Hne. apply last_is_Some in Hne. destruct Hne as [x Hx].
  apply last_Some in Hx. destruct Hx as [d1 ->].
  exists x, d1. split; [apply pop_snoc|reflexivity].
Qed.

Lemma dealLoop_short (n : nat) :
  forall d p a, (length d < 2 * n)%nat -> Round.dealLoop n d p a = None.
Proof.
  induction n as [|n IH]; intros d p a Hlen; [lia|]. simpl.
  destruct (Round.pop d) as [[ca d1]|] eqn:E1; [|reflexivity]. simpl.
  apply pop_Some in E1. subst d. rewrite length_app in Hlen. simpl in Hlen.
  destruct (Round.pop d1) as [[cp d2]|] eqn:E2; [|reflexivity]. simpl.
  apply pop_Some in E2. subst d1. rewrite length_app in Hlen. simpl in Hlen.
  apply IH. lia.
Qed.

Lemma dealLoop_enough (n : nat) :
  forall d p a, (2 * n <= length d)%nat ->
    exists d' p' a',
      Round.dealLoop n d p a = Some (d', p', a')
      /\ d' = take (length d - 2 * n) d
      /\ length p' = (length p + n)%nat /\ length a' = (length a + n)%nat
      /\ d ++ p ++ a ≡ₚ d' ++ p' ++ a'.
Proof.
  induction n as [|n IH]; intros d p a Hlen.
  - exists d, p, a. split; [reflexivity|]. split; [rewrite take_ge; [done|lia]|].
    split; [lia|]. split; [lia|reflexivity].
  - simpl Round.dealLoop.
    destruct (pop_nonempty d) as (ca & d1 & -> & Hd); [destruct d; [simpl in Hlen; lia|done]|].
    subst d. rewrite length_app in Hlen. simpl in Hlen. simpl.
    destruct (pop_nonempty d1) as (cp & d2 & -> & Hd); [destruct d1; [simpl in Hlen; lia|done]|].
    subst d1. rewrite length_app in Hlen. simpl in Hlen. simpl.
    destruct (IH d2 (p ++ [cp]) (a ++ [ca])) as (d' & p' & a' & -> & Hd' & Hp & Ha & Hperm);
      [lia|].
    exists d', p', a'. split; [reflexivity|]. rewrite !length_app in *. simpl in *.
    split; [|split; [lia|split; [lia|]]].
    + subst d'. rewrite <- app_assoc.
      rewrite take_app_le by lia. f_equal. lia.
    + rewrite <- Hperm. rewrite <- !app_assoc. simpl.
      apply Permutation_app_head.
      rewrite <- (Permutation_middle p). apply perm_skip.
      rewrite app_assoc. apply Permutation_cons_append.
Qed.

Lemma deal_cards_aux (env st : Round.table) :
  ((length (Round.deck env) < 12)%nat -> Round.deal env st = None)
  /\ ((12 <= length (Round.deck env))%nat ->
      exists st', Round.deal env st = Some st'
        /\ length (Hook.pHand (Round.hook st')) = 6%nat
        /\ length (Hook.aiHand (Round.hook st')) = 6%nat
        /\ Round.deck st' = take (length (Round.deck env) - 12) (Round.deck env)
        /\ Round.deck env ≡ₚ Round.deck st' ++ Hook.pHand (Round.hook st')
                              ++ Hook.aiHand (Round.hook st')
        /\ Hook.crib (Round.hook st') = []
        /\ Hook.phase (Round.hook st') = Hook.phaseDiscard
        /\ Hook.scores (Round.hook st') = Hook.scores (Round.hook st)).
Proof.
  split.
  - intros Hlen. unfold Round.deal. rewrite dealLoop_short by lia. reflexivity.
  - intros Hlen. unfold Round.deal.
    destruct (dealLoop_enough 6 (Round.deck env) [] []) as (d' & p' & a' & -> & Hd & Hp & Ha & Hperm);
      [lia|].
    simpl. eexists. split; [reflexivity|]. simpl.
    repeat split; try done. by rewrite !app_nil_r in Hperm.
Qed.

(** X12. [deal] hands out the last twelve cards of the deck, six to each side, and
    keeps the rest in order; nothing is lost or dealt twice, the crib is
    emptied and the scores stay.  With fewer than twelve cards there is no
    proper deal. *)
Theorem deal_cards (env st : Round.table) :
  ((length (Round.deck env) < 12)%nat -> Round.deal env st = None)
  /\ ((12 <= length (Round.deck env))%nat ->
      exists st', Round.deal env st = Some st'
        /\ length (Hook.pHand (Round.hook st')) = 6%nat
        /\ length (Hook.aiHand (Round.hook st')) = 6%nat
        /\ Round.deck st' = take (length (Round.deck env) - 12) (Round.deck env)
        /\ Round.deck env ≡ₚ Round.deck st' ++ Hook.pHand (Round.hook st')
                              ++ Hook.aiHand (Round.hook st')
        /\ Hook.crib (Round.hook st') = []
        /\ Hook.phase (Round.hook st') = Hook.phaseDiscard
        /\ Hook.scores (Round.hook st') = Hook.scores (Round.hook st)).
Proof. exact (deal_cards_aux env st). Qed.

Lemma deal_cards_witness :
  exists st', Round.deal (Round.mkTable (Hook.initial AI) None (makeDeck 0))
                         (Round.mkTable (Hook.initial AI) None (makeDeck 0)) = Some st'
    /\ length (Hook.pHand (Round.hook st')) = 6%nat.
Proof.
  destruct (proj2 (deal_cards (Round.mkTable (Hook.initial AI) None (makeDeck 0))
                              (Round.mkTable (Hook.initial AI) None (makeDeck 0))))
    as (st' & H1 & H2 & _).
  - simpl. lia.
  - exists st'. split; [exact H1|exact H2].
Defined.

(** X13. A round dealt from a freshly shuffled deck, whatever the seed: the two
    hands and the 40 cards left are the 52 cards of the deck, so no face
    occurs twice among them. *)
Theorem fresh_round_cards (base : nat) (seed : Z) (h : Hook.state) (pg : option PegState) :
  exists d seed' st',
    shuffle (makeDeck base) seed = Some (d, seed')
    /\ Round.deal (Round.mkTable h pg d) (Round.mkTable h pg d) = Some st'
    /\ length (Round.deck st') = 40%nat
    /\ NoDup (face <$> (Hook.pHand (Round.hook st') ++ Hook.aiHand (Round.hook st')
                        ++ Round.deck st'))
    /\ Hook.pHand (Round.hook st') ++ Hook.aiHand (Round.hook st') ++ Round.deck st'
       ≡ₚ makeDeck base.
Proof.
  destruct (shuffle_permutation_aux (makeDeck base) seed) as (d & Hs & Hperm).
  assert (Hlen : length d = 52%nat) by (by rewrite Hperm).
  destruct (proj2 (deal_cards_aux (Round.mkTable h pg d) (Round.mkTable h pg d)))
    as (st' & Hdeal & Hp & Ha & Hd & Hcons & _); [simpl; lia|].
  simpl in Hd, Hcons.
  assert (Hall : Hook.pHand (Round.hook st') ++ Hook.aiHand (Round.hook st')
                 ++ Round.deck st' ≡ₚ makeDeck base).
  { rewrite <- Hperm, Hcons.
    rewrite (Permutation_app_comm (Round.deck st')), <- app_assoc. reflexivity. }
  eexists d, _, st'. split; [exact Hs|]. split; [exact Hdeal|].
  split; [rewrite Hd, length_take; lia|]. split; [|exact Hall].
  rewrite Hall. apply (proj1 (proj2 (makeDeck_complete_aux base))).
Qed.

(** [addScore] touches the scores, the game-over flag and the winner only. *)
Lemma addScore_frame (env st : Hook.state) (who : player) (delta : Z) :
  let st' := Hook.addScore env who delta st in
  Hook.dealer st' = Hook.dealer st /\ Hook.pHand st' = Hook.pHand st
  /\ Hook.aiHand st' = Hook.aiHand st /\ Hook.crib st' = Hook.crib st
  /\ Hook.starter st' = Hook.starter st /\ Hook.phase st' = Hook.phase st.
Proof. unfold Hook.addScore. repeat case_match; done. Qed.

(** X14. [cutStarter] turns up the last card of the deck.  The pegging state it
    builds is empty (no stack, total 0, no pass), holds the two hands, has
    seen the crib and the starter, and gives the first move to the
    non-dealer; a Jack scores 2 for the dealer, clamped at 120, unless the
    render already saw the game over.  On an empty deck it fails. *)
Theorem cutStarter_spec (env st : Round.table) :
  (Round.deck env = [] -> Round.cutStarter env st = None)
  /\ (forall d cut, Round.deck env = d ++ [cut] ->
       exists st' pg,
         Round.cutStarter env st = Some st'
         /\ Round.deck st' = d
         /\ Hook.starter (Round.hook st') = Some cut
         /\ Hook.phase (Round.hook st') = Hook.phasePegging
         /\ Round.peg st' = Some pg
         /\ stack pg = [] /\ total pg = 0
         /\ pPassed pg = false /\ aiPassed pg = false
         /\ pHand pg = Hook.pHand (Round.hook env)
         /\ aiHand pg = Hook.aiHand (Round.hook env)
         /\ seen pg = Hook.crib (Round.hook env) ++ [cut]
         /\ next pg = other (Hook.dealer (Round.hook env))
         /\ (forall w, Hook.get w (Hook.scores (Round.hook st'))
               = if decide (w = Hook.dealer (Round.hook env) /\ r cut = 11
                            /\ Hook.gameOver (Round.hook env) = false)
                 then Z.min 120 (Hook.get w (Hook.scores (Round.hook st)) + 2)
                 else Hook.get w (Hook.scores (Round.hook st)))).
Proof.
  split.
  - intros Hd. unfold Round.cutStarter. rewrite Hd. reflexivity.
  - intros d cut Hd. unfold Round.cutStarter. rewrite Hd, pop_snoc.
    cbn -[Hook.addScore Z.min].
    eexists _, _. split; [reflexivity|]. cbn -[Hook.addScore Z.min].
    split; [reflexivity|].
    split.
    { destruct (r cut =? 11); [|reflexivity].
      match goal with
      | |- Hook.starter (Hook.addScore ?e ?w ?dl ?s0) = _ =>
          destruct (addScore_frame e s0 w dl) as (_ & _ & _ & _ & Hs & _)
      end.
      exact Hs. }
    do 9 (split; [reflexivity|]). split; [by destruct (Hook.dealer _)|].
    intros w. destruct (r cut =? 11) eqn:E.
    + apply Z.eqb_eq in E. rewrite addScore_scores. cbn -[Z.min].
      destruct (decide (w = Hook.dealer (Round.hook env)
                        /\ Hook.gameOver (Round.hook env) = false)) as [[-> Hg]|Hn].
      * rewrite !decide_True; [reflexivity|done|]. split; [done|]. split; [lia|done].
      * rewrite !decide_False; [reflexivity|tauto|tauto].
    + apply Z.eqb_neq in E. cbn. rewrite decide_False; [reflexivity|tauto].
Qed.

Lemma cutStarter_spec_witness :
  exists st', Round.cutStarter (Round.mkTable showEnv None [Card 30 9 Clubs; Card 31 11 Hearts])
                               (Round.mkTable showEnv None [Card 30 9 Clubs; Card 31 11 Hearts])
              = Some st'
    /\ Round.deck st' = [Card 30 9 Clubs].
Proof.
  destruct (proj2 (cutStarter_spec
                     (Round.mkTable showEnv None [Card 30 9 Clubs; Card 31 11 Hearts])
                     (Round.mkTable showEnv None [Card 30 9 Clubs; Card 31 11 Hearts]))
                  [Card 30 9 Clubs] (Card 31 11 Hearts) eq_refl)
    as (st' & pg & H1 & H2 & _).
  exists st'. split; [exact H1|exact H2].
Defined.

(** * Further properties of the pegging step *)

Lemma tailRun_NoDup (l : nat) (seq : list card) :
  tailRun l seq -> NoDup (r <$> lastn l seq).
Proof.
  intros (_ & _ & lo & Hperm). rewrite Hperm. apply NoDup_seqZ.
Qed.

Lemma pair_no_tailRun (stk : list card) (d c : card) (l : nat) :
  r d = r c -> ~ tailRun l ((stk ++ [d]) ++ [c]).
Proof.
  intros Hr Hrun. pose proof (tailRun_NoDup _ _ Hrun) as Hnd.
  destruct Hrun as ([H3 _] & Hlen & _).
  destruct l as [|[|l]]; [lia|lia|].
  rewrite !lastn_snoc, !fmap_app in Hnd. simpl in Hnd.
  rewrite <- app_assoc in Hnd. apply NoDup_app in Hnd.
  destruct Hnd as (_ & _ & Hnd). simpl in Hnd. rewrite Hr in Hnd.
  apply NoDup_cons in Hnd. destruct Hnd as [Hnot _].
  apply Hnot. apply list_elem_of_here.
Qed.

Lemma pair_excludes_run_aux (stk : list card) (d c : card) :
  r d = r c ->
  runLoop (Nat.min 7 (length ((stk ++ [d]) ++ [c]))) ((stk ++ [d]) ++ [c]) = 0
  /\ isPairRunPoints (stk ++ [d]) c
     = pairPoints (2 + sameBack (r c) (reverse stk)).
Proof.
  intros Hr.
  assert (Hrun : runLoop (Nat.min 7 (length ((stk ++ [d]) ++ [c])))
                         ((stk ++ [d]) ++ [c]) = 0).
  { destruct (run_longest ((stk ++ [d]) ++ [c])) as (n & -> & [[-> _]|[Hn _]]);
      [reflexivity|]. by apply pair_no_tailRun in Hn. }
  split; [exact Hrun|]. unfold isPairRunPoints. rewrite Hrun.
  rewrite reverse_snoc. simpl. rewrite Hr, Z.eqb_refl. rewrite Z.add_0_r.
  f_equal. lia.
Qed.

(** X16. A card that pairs the card before it scores for the pair only: no tail
    ending in two equal ranks is a run. *)
Theorem pair_excludes_run (stk : list card) (d c : card) :
  r d = r c ->
  runLoop (Nat.min 7 (length ((stk ++ [d]) ++ [c]))) ((stk ++ [d]) ++ [c]) = 0
  /\ isPairRunPoints (stk ++ [d]) c
     = pairPoints (2 + sameBack (r c) (reverse stk)).
Proof. exact (pair_excludes_run_aux stk d c). Qed.

Lemma pair_excludes_run_witness :
  isPairRunPoints ([Card 0 3 Clubs; Card 1 4 Hearts] ++ [Card 2 5 Spades]) (Card 3 5 Clubs)
  = 2.
Proof.
  exact (proj2 (pair_excludes_run [Card 0 3 Clubs; Card 1 4 Hearts]
                                  (Card 2 5 Spades) (Card 3 5 Clubs) eq_refl)).
Defined.

Lemma sameBack_nonneg (rk : Z) (back : list card) : 0 <= sameBack rk back.
Proof. destruct (sameBack_spec rk back) as (k & -> & _). lia. Qed.

Lemma sameBack_pos (rk : Z) (back : list card) :
  0 < sameBack rk back -> exists d back', back = d :: back' /\ r d = rk.
Proof.
  destruct back as [|d back']; simpl; [lia|].
  destruct (r d =? rk) eqn:E; [|lia]. apply Z.eqb_eq in E. eauto.
Qed.

Lemma isPairRunPoints_bound (stk : list card) (c : card) :
  0 <= isPairRunPoints stk c <= 12.
Proof.
  split; [apply isPairRunPoints_nonneg|].
  pose proof (sameBack_nonneg (r c) (reverse stk)) as H0.
  destruct (decide (sameBack (r c) (reverse stk) = 0)) as [E|Hpos].
  - unfold isPairRunPoints. rewrite E. change (pairPoints (1 + 0)) with 0.
    destruct (run_longest (stk ++ [c])) as (n & -> & [[-> _]|[((_ & H7) & _) _]]); lia.
  - destruct (sameBack_pos (r c) (reverse stk)) as (d & back' & Hb & Hr); [lia|].
    assert (Hstk : stk = reverse back' ++ [d]).
    { rewrite <- (reverse_involutive stk), Hb, reverse_cons. reflexivity. }
    rewrite Hstk. rewrite (proj2 (pair_excludes_run_aux (reverse back') d c Hr)).
    unfold pairPoints. repeat case_match; lia.
Qed.

Lemma applyPlay_points_bound_aux (st : PegState) (c : card) (who : player) :
  exists p, points (applyPlay st c who) = Some p /\ 0 <= p <= 14.
Proof.
  eexists. split; [reflexivity|].
  pose proof (isPairRunPoints_bound (stack st) c).
  destruct (total st + cardValue15 (r c) =? 15) eqn:E1;
    destruct (total st + cardValue15 (r c) =? 31) eqn:E2;
    rewrite ?Z.eqb_eq, ?Z.eqb_neq in *; lia.
Qed.

(** X17. One play scores between 0 and 14 points. *)
Theorem applyPlay_points_bound (st : PegState) (c : card) (who : player) :
  exists p, points (applyPlay st c who) = Some p /\ 0 <= p <= 14.
Proof. exact (applyPlay_points_bound_aux st c who). Qed.

Lemma cardValue15_bound (rk : Z) : cardValue15 rk <= 10 /\ (1 <= rk -> 1 <= cardValue15 rk).
Proof. unfold cardValue15. destruct (10 <? rk) eqn:E; [|apply Z.ltb_ge in E]; lia. Qed.

(** X15. Up to a total of 21 every card may be played, so nobody can say Go; at 31
    no card of rank 1 or more may. *)
Theorem legalPlays_extremes (hand : list card) (tot : Z) :
  (tot <= 21 -> legalPlays hand tot = hand)
  /\ (31 <= tot -> Forall (fun c => 1 <= r c) hand -> legalPlays hand tot = []).
Proof.
  unfold legalPlays. split.
  - intros Ht. induction hand as [|c hand IH]; [reflexivity|].
    rewrite filter_cons_True by (pose proof (cardValue15_bound (r c)); lia).
    by rewrite IH.
  - intros Ht Hall. induction Hall as [|c hand Hc _ IH]; [reflexivity|].
    rewrite filter_cons_False by (pose proof (cardValue15_bound (r c)); lia).
    exact IH.
Qed.

Lemma legalPlays_extremes_witness :
  legalPlays [Card 0 13 Clubs; Card 1 2 Hearts] 21 = [Card 0 13 Clubs; Card 1 2 Hearts]
  /\ legalPlays [Card 0 1 Clubs; Card 1 2 Hearts] 31 = [].
Proof.
  split.
  - refine (proj1 (legalPlays_extremes [Card 0 13 Clubs; Card 1 2 Hearts] 21) _). lia.
  - refine (proj2 (legalPlays_extremes [Card 0 1 Clubs; Card 1 2 Hearts] 31) _ _);
      [lia|repeat constructor; simpl; lia].
Defined.

Lemma sumVals_snoc (l : list card) (c : card) :
  sumVals (l ++ [c]) = sumVals l + cardValue15 (r c).
Proof. unfold sumVals. by rewrite foldl_app. Qed.

(** X18. When the card played is one the actor holds, once, it moves from the
    hand to the top of the stack: the cards in play stay the same, and a
    total that is the sum of the stack's values stays so. *)
Theorem applyPlay_conserves (st : PegState) (c : card) (who : player) :
  c ∈ handOf who st -> NoDup (handOf who st) ->
  handOf who st ≡ₚ c :: handOf who (applyPlay st c who)
  /\ stack (applyPlay st c who) ++ pHand (applyPlay st c who)
       ++ aiHand (applyPlay st c who)
     ≡ₚ stack st ++ pHand st ++ aiHand st
  /\ (total st = sumVals (stack st) ->
      total (applyPlay st c who) = sumVals (stack (applyPlay st c who))).
Proof.
  intros Hin Hnd.
  assert (Hhand : handOf who st ≡ₚ c :: filter (fun x => x <> c) (handOf who st)).
  { apply NoDup_Permutation; [exact Hnd| |].
    - apply NoDup_cons. split; [|by apply NoDup_filter].
      rewrite list_elem_of_filter. tauto.
    - intros x. rewrite elem_of_cons, list_elem_of_filter.
      destruct (decide (x = c)) as [->|Hne]; [tauto|]. tauto. }
  split; [by rewrite applyPlay_hand_actor|]. split.
  - rewrite applyPlay_stack. destruct who; simpl in *.
    + rewrite Hhand at 2. rewrite <- app_assoc. apply Permutation_app_head.
      simpl. reflexivity.
    + rewrite Hhand at 2. rewrite <- app_assoc. apply Permutation_app_head.
      simpl. rewrite <- Permutation_middle. reflexivity.
  - intros Ht. rewrite applyPlay_stack, applyPlay_total, sumVals_snoc. lia.
Qed.

Lemma applyPlay_conserves_witness :
  let st := mkPeg [Card 0 13 Clubs] 10 [Card 2 9 Spades; Card 3 4 Hearts]
                  [Card 4 11 Clubs] [] None P false false None None in
  total (applyPlay st (Card 2 9 Spades) P)
  = sumVals (stack (applyPlay st (Card 2 9 Spades) P)).
Proof.
  intros st.
  refine (proj2 (proj2 (applyPlay_conserves st (Card 2 9 Spades) P _ _)) _).
  - apply list_elem_of_here.
  - apply (bool_decide_unpack _). vm_compute. exact I.
  - reflexivity.
Defined.

(** * The pegging handlers *)

(** [playPegCard] does nothing once the render has seen the game over, or
    without a pegging state. *)
Lemma playPegCard_ignored (env : Round.table) (c : card) (st : Round.table) :
  Hook.gameOver (Round.hook env) = true \/ Round.peg env = None ->
  Round.playPegCard env c st = Some st.
Proof.
  intros [Hg|Hp]; unfold Round.playPegCard.
  - by rewrite Hg.
  - rewrite Hp. by destruct (Hook.gameOver _).
Qed.

(** X19. A play that does not end the pegging: the card is played for the
    player whose turn it is, who is credited the points of the play (clamped
    at 120) and nobody else.  When the new total is 31 the pegging state is
    stored with an empty stack, total 0 and no pass flag, the hands, seen
    cards, starter and turn being those after the play; any other total is
    stored as the play left it. *)
Theorem playPegCard_step (env : Round.table) (c : card) (st : Round.table)
    (pg : PegState) :
  Hook.gameOver (Round.hook env) = false -> Round.peg env = Some pg ->
  let s1 := applyPlay pg c (next pg) in
  (total s1 = 31 \/ pHand s1 <> [] \/ aiHand s1 <> []) ->
  exists st' p pg',
    Round.playPegCard env c st = Some st'
    /\ points s1 = Some p
    /\ Round.peg st' = Some pg'
    /\ (total s1 = 31 ->
        stack pg' = [] /\ total pg' = 0
        /\ pPassed pg' = false /\ aiPassed pg' = false
        /\ pHand pg' = pHand s1 /\ aiHand pg' = aiHand s1
        /\ seen pg' = seen pg /\ starter pg' = starter pg
        /\ next pg' = other (next pg)
        /\ points pg' = Some p /\ thirtyOne pg' = Some true)
    /\ (total s1 <> 31 -> pg' = s1)
    /\ Round.deck st' = Round.deck st
    /\ (forall w, Hook.get w (Hook.scores (Round.hook st'))
          = if decide (w = next pg /\ 0 < p)
            then Z.min 120 (Hook.get w (Hook.scores (Round.hook st)) + p)
            else Hook.get w (Hook.scores (Round.hook st))).
Proof.
  intros Hg Hpeg s1 Hcont.
  destruct (applyPlay_points_bound_aux pg c (next pg)) as (p & Hp & Hp0).
  fold s1 in Hp.
  assert (H31 : thirtyOne s1 = Some (total s1 =? 31)) by reflexivity.
  assert (Hscore : forall w,
    Hook.get w (Hook.scores (if p =? 0 then Round.hook st
                             else Hook.addScore (Round.hook env) (next pg) p (Round.hook st)))
    = if decide (w = next pg /\ 0 < p)
      then Z.min 120 (Hook.get w (Hook.scores (Round.hook st)) + p)
      else Hook.get w (Hook.scores (Round.hook st))).
  { intros w. destruct (p =? 0) eqn:E0.
    - apply Z.eqb_eq in E0. rewrite decide_False by lia. reflexivity.
    - apply Z.eqb_neq in E0. rewrite addScore_scores.
      destruct (decide (w = next pg)) as [->|Hw].
      + rewrite !decide_True; [reflexivity|split; [done|lia]|].
        split; [done|]. split; [lia|done].
      + rewrite !decide_False; [reflexivity|tauto|tauto]. }
  unfold Round.playPegCard. rewrite Hg, Hpeg. fold s1. rewrite Hp, H31.
  cbn [default from_option]. unfold id.
  destruct (total s1 =? 31) eqn:E31.
  - apply Z.eqb_eq in E31.
    eexists _, p, _. split; [reflexivity|]. split; [reflexivity|].
    split; [reflexivity|]. split.
    { intros _. cbn [Round.resetPeg stack total pPassed aiPassed pHand aiHand
                     seen starter next points thirtyOne].
      rewrite Hp, H31. repeat split. }
    split; [intros Hne; by destruct Hne|]. split; [reflexivity|]. exact Hscore.
  - apply Z.eqb_neq in E31.
    assert (Hnot : bool_decide (pHand s1 = []) && bool_decide (aiHand s1 = []) = false).
    { destruct Hcont as [?|[Hn|Hn]]; [done| |].
      - by rewrite (bool_decide_eq_false_2 _ Hn).
      - rewrite (bool_decide_eq_false_2 _ Hn). apply andb_false_r. }
    rewrite Hnot.
    eexists _, p, _. split; [reflexivity|]. split; [reflexivity|].
    split; [reflexivity|]. split; [intros E; by destruct E31|].
    split; [reflexivity|]. split; [reflexivity|]. exact Hscore.
Qed.

Lemma playPegCard_step_witness :
  let pg := mkPeg [Card 0 13 Clubs; Card 1 12 Hearts; Card 5 1 Diamonds] 21
                  [Card 2 11 Spades; Card 3 4 Hearts] [Card 4 1 Clubs]
                  [] (Some (Card 12 4 Hearts)) P false false None None in
  let env := Round.mkTable showEnv (Some pg) [] in
  exists st' pg',
    Round.playPegCard env (Card 2 11 Spades) env = Some st'
    /\ Round.peg st' = Some pg'
    /\ stack pg' = [] /\ total pg' = 0 /\ pHand pg' = [Card 3 4 Hearts]
    /\ Hook.get P (Hook.scores (Round.hook st')) = 120.
Proof.
  intros pg env.
  destruct (playPegCard_step env (Card 2 11 Spades) env pg eq_refl eq_refl)
    as (st' & p & pg' & H1 & H2 & H3 & H4 & _ & _ & H5).
  - left. reflexivity.
  - exists st', pg'. split; [exact H1|]. split; [exact H3|].
    destruct (H4 eq_refl) as (Hs & Ht & _ & _ & Hh & _).
    split; [exact Hs|]. split; [exact Ht|]. split; [exact Hh|].
    injection H2 as <-. rewrite (H5 P). reflexivity.
Defined.


(** X20. [declareGo], called from a render that has not seen the game over
    and has a pegging state, is refused with no state change and no timer
    while the declaring player holds a legal card.  Otherwise it stores the
    pegging state of the render with that player's pass flag set and the turn
    given to the other player, every other field (stack, total, hands, seen
    cards, starter, the other pass flag, last points) as it was, leaves
    scores and deck alone, and arms the timer. *)
Theorem declareGo_spec (env : Round.table) (who : player) (st : Round.table)
    (pg : PegState) :
  Hook.gameOver (Round.hook env) = false -> Round.peg env = Some pg ->
  (legalPlays (handOf who pg) (total pg) <> [] ->
     Round.declareGo env who st = (st, false))
  /\ (legalPlays (handOf who pg) (total pg) = [] ->
      exists pg',
        Round.declareGo env who st
        = (Round.mkTable (Round.hook st) (Some pg') (Round.deck st), true)
        /\ passedOf who pg' = true
        /\ passedOf (other who) pg' = passedOf (other who) pg
        /\ next pg' = other who
        /\ stack pg' = stack pg /\ total pg' = total pg
        /\ pHand pg' = pHand pg /\ aiHand pg' = aiHand pg
        /\ seen pg' = seen pg /\ starter pg' = starter pg
        /\ points pg' = points pg /\ thirtyOne pg' = thirtyOne pg).
Proof.
  intros Hg Hpeg. unfold Round.declareGo. rewrite Hg, Hpeg. split.
  - intros Hleg. destruct who; simpl in Hleg;
      by rewrite (bool_decide_eq_false_2 _ Hleg).
  - intros Hleg. destruct who; simpl in Hleg;
      rewrite (bool_decide_eq_true_2 _ Hleg); eexists; (split; [reflexivity|]);
      repeat split.
Qed.

Lemma declareGo_spec_witness :
  let pg := mkPeg [Card 0 13 Clubs; Card 1 12 Hearts; Card 5 9 Clubs] 29
                  [Card 2 11 Spades; Card 3 4 Hearts] [Card 4 1 Clubs]
                  [Card 8 6 Clubs] (Some (Card 12 4 Hearts)) P false false
                  (Some 0) (Some false) in
  let env := Round.mkTable showEnv (Some pg) [] in
  Round.declareGo env AI env = (env, false)
  /\ exists pg', Round.declareGo env P env = (Round.mkTable showEnv (Some pg') [], true)
       /\ pPassed pg' = true /\ next pg' = AI /\ seen pg' = [Card 8 6 Clubs].
Proof.
  intros pg env. split.
  - refine (proj1 (declareGo_spec env AI env pg eq_refl eq_refl) _).
    vm_compute. discriminate.
  - destruct (proj2 (declareGo_spec env P env pg eq_refl eq_refl) eq_refl)
      as (pg' & E & Hp & _ & Hn & _ & _ & _ & _ & Hs & _).
    exists pg'. split; [exact E|]. split; [exact Hp|]. split; [exact Hn|exact Hs].
Defined.

Lemma goTimeout_spec_aux (env st : Round.table) (ps : PegState) :
  Round.peg st = Some ps ->
  (pPassed ps && aiPassed ps = false -> Round.goTimeout env st = (st, None))
  /\ (pPassed ps && aiPassed ps = true ->
      let st' := (Round.goTimeout env st).1 in
      Round.peg st' = Some (Round.resetPeg ps)
      /\ (Round.goTimeout env st).2
         = (if bool_decide (pHand ps = []) && bool_decide (aiHand ps = [])
            then Some (Round.resetPeg ps) else None)
      /\ Round.deck st' = Round.deck st
      /\ (forall w, Hook.get w (Hook.scores (Round.hook st'))
            = if decide (w = other (next ps) /\ Hook.gameOver (Round.hook env) = false)
              then Z.min 120 (Hook.get w (Hook.scores (Round.hook st)) + 1)
              else Hook.get w (Hook.scores (Round.hook st)))).
Proof.
  intros Hpeg. unfold Round.goTimeout. rewrite Hpeg. split.
  - by intros ->.
  - intros ->. cbn -[Hook.addScore Z.min].
    split; [reflexivity|]. split; [reflexivity|]. split; [reflexivity|].
    intros w. rewrite addScore_scores.
    assert (Ho : match next ps with P => AI | AI => P end = other (next ps))
      by (by destruct (next ps)).
    rewrite Ho.
    destruct (decide (w = other (next ps) /\ Hook.gameOver (Round.hook env) = false))
      as [[-> Hg]|Hn].
    + rewrite decide_True; [reflexivity|]. split; [done|]. split; [lia|done].
    + rewrite decide_False; [reflexivity|tauto].
Qed.

(** X21. The timer of [declareGo], run on a pending pegging state: until
    both players have passed it changes nothing.  Once both have passed, the
    player who is not to move next (the one who passed last) scores 1,
    clamped at 120, unless the render saw the game over; the pegging state
    is stored with an empty stack, total 0 and no pass flag, its hands, seen
    cards, starter, turn and last points as they were; the deck stays; and
    the show is scheduled for that state exactly when both hands are
    empty. *)
Theorem goTimeout_spec (env st : Round.table) (ps : PegState) :
  Round.peg st = Some ps ->
  (pPassed ps && aiPassed ps = false -> Round.goTimeout env st = (st, None))
  /\ (pPassed ps && aiPassed ps = true ->
      exists st' ns,
        (Round.goTimeout env st).1 = st'
        /\ Round.peg st' = Some ns
        /\ stack ns = [] /\ total ns = 0
        /\ pPassed ns = false /\ aiPassed ns = false
        /\ pHand ns = pHand ps /\ aiHand ns = aiHand ps
        /\ seen ns = seen ps /\ starter ns = starter ps /\ next ns = next ps
        /\ points ns = points ps /\ thirtyOne ns = thirtyOne ps
        /\ (Round.goTimeout env st).2
           = (if bool_decide (pHand ps = []) && bool_decide (aiHand ps = [])
              then Some ns else None)
        /\ Round.deck st' = Round.deck st
        /\ (forall w, Hook.get w (Hook.scores (Round.hook st'))
              = if decide (w = other (next ps)
                           /\ Hook.gameOver (Round.hook env) = false)
                then Z.min 120 (Hook.get w (Hook.scores (Round.hook st)) + 1)
                else Hook.get w (Hook.scores (Round.hook st)))).
Proof.
  intros Hpeg. split; [exact (proj1 (goTimeout_spec_aux env st ps Hpeg))|].
  intros Hboth.
  destruct (proj2 (goTimeout_spec_aux env st ps Hpeg) Hboth) as (H1 & H2 & H3 & H4).
  exists (Round.goTimeout env st).1, (Round.resetPeg ps).
  split; [reflexivity|]. split; [exact H1|].
  do 11 (split; [reflexivity|]).
  split; [exact H2|]. split; [exact H3|exact H4].
Qed.

Lemma goTimeout_spec_witness :
  let ps := mkPeg [Card 0 13 Clubs; Card 1 12 Hearts; Card 5 9 Clubs] 29
                  [Card 3 4 Hearts] [Card 4 5 Clubs]
                  [] (Some (Card 12 4 Hearts)) P true true None None in
  let st := Round.mkTable showEnv (Some ps) [] in
  exists st' ns,
    (Round.goTimeout st st).1 = st' /\ Round.peg st' = Some ns
    /\ stack ns = [] /\ total ns = 0 /\ pHand ns = [Card 3 4 Hearts]
    /\ Hook.get AI (Hook.scores (Round.hook st')) = 101.
Proof.
  intros ps st.
  destruct (proj2 (goTimeout_spec st st ps eq_refl) eq_refl)
    as (st' & ns & E & Hp & Hs & Ht & _ & _ & Hh & _ & _ & _ & _ & _ & _ & _ & _ & Hsc).
  exists st', ns. split; [exact E|]. split; [exact Hp|]. split; [exact Hs|].
  split; [exact Ht|]. split; [exact Hh|]. rewrite (Hsc AI). reflexivity.
Defined.



Lemma pegOK_reset (ps : PegState) : pegOK (Round.resetPeg ps).
Proof. split; [reflexivity|simpl; lia]. Qed.

Lemma pegOK_play (pg : PegState) (c : card) :
  pegOK pg -> c ∈ legalPlays (handOf (next pg) pg) (total pg) ->
  total (applyPlay pg c (next pg)) <> 31 -> pegOK (applyPlay pg c (next pg)).
Proof.
  intros [Hsum _] Hc H31. apply list_elem_of_filter in Hc. destruct Hc as [Hle _].
  split.
  - rewrite applyPlay_stack, applyPlay_total, sumVals_snoc. lia.
  - rewrite applyPlay_total in *. lia.
Qed.

(** X23. The pegging state stays sound through every handler: whenever the cards
    played are legal ones, the total is the sum of the values on the stack
    and never stands at 31 or more between two actions. *)
Theorem pegOK_kept (env st : Round.table) :
  (forall pg, Round.peg env = Some pg -> pegOK pg) ->
  (forall ps, Round.peg st = Some ps -> pegOK ps) ->
  (forall st' ps', Round.cutStarter env st = Some st' ->
                   Round.peg st' = Some ps' -> pegOK ps')
  /\ (forall pg c st' ps',
        Round.peg env = Some pg ->
        c ∈ legalPlays (handOf (next pg) pg) (total pg) ->
        Round.playPegCard env c st = Some st' ->
        Round.peg st' = Some ps' -> pegOK ps')
  /\ (forall who ps', Round.peg (Round.declareGo env who st).1 = Some ps' -> pegOK ps')
  /\ (forall ps', Round.peg (Round.goTimeout env st).1 = Some ps' -> pegOK ps').
Proof.
  intros Henv Hst. split; [|split; [|split]].
  - intros st' ps'. unfold Round.cutStarter.
    destruct (Round.pop (Round.deck env)) as [[cut d]|]; [|discriminate].
    simpl. intros [= <-]. simpl. intros [= <-]. split; [reflexivity|simpl; lia].
  - intros pg c st' ps' Hpeg Hc. unfold Round.playPegCard. rewrite Hpeg.
    destruct (Hook.gameOver (Round.hook env)); [intros [= <-]; apply Hst|].
    set (s1 := applyPlay pg c (next pg)).
    assert (H31 : thirtyOne s1 = Some (total s1 =? 31)) by reflexivity.
    rewrite H31. cbn [default from_option].
    destruct (total s1 =? 31) eqn:E.
    + intros [= <-]. simpl. intros [= <-]. apply pegOK_reset.
    + apply Z.eqb_neq in E.
      assert (Hok : pegOK s1) by (apply pegOK_play; [by apply Henv|done|done]).
      destruct (bool_decide (pHand s1 = []) && bool_decide (aiHand s1 = [])).
      * destruct (Hook.endPeggingAndScoreHands _ _ _); [|discriminate].
        simpl. intros [= <-]. simpl. by intros [= <-].
      * intros [= <-]. simpl. by intros [= <-].
  - intros who ps'. unfold Round.declareGo.
    destruct (Hook.gameOver (Round.hook env)); [apply Hst|].
    destruct (Round.peg env) as [pg|] eqn:Hpeg; [|apply Hst].
    specialize (Henv pg eq_refl).
    destruct who; case_bool_decide; simpl; try apply Hst; by intros [= <-].
  - intros ps'. unfold Round.goTimeout.
    destruct (Round.peg st) as [ps|] eqn:Hpeg; [|simpl; by rewrite Hpeg].
    destruct (pPassed ps && aiPassed ps).
    + simpl. intros [= <-]. apply pegOK_reset.
    + simpl. rewrite Hpeg. intros [= <-]. by apply Hst.
Qed.

Lemma pegOK_kept_witness :
  let pg := mkPeg [Card 0 13 Clubs; Card 1 12 Hearts] 20
                  [Card 2 11 Spades; Card 3 4 Hearts] [Card 4 1 Clubs]
                  [] (Some (Card 12 4 Hearts)) P false false None None in
  let env := Round.mkTable showEnv (Some pg) [] in
  exists st' ps',
    Round.playPegCard env (Card 3 4 Hearts) env = Some st'
    /\ Round.peg st' = Some ps'
    /\ stack ps' = [Card 0 13 Clubs; Card 1 12 Hearts; Card 3 4 Hearts]
    /\ total ps' = 24
    /\ pegOK ps'.
Proof.
  intros pg env.
  assert (Hok : forall q, Round.peg env = Some q -> pegOK q).
  { intros q [= <-]. split; [reflexivity|simpl; lia]. }
  assert (Hleg : Card 3 4 Hearts ∈ legalPlays (handOf (next pg) pg) (total pg)).
  { apply list_elem_of_further, list_elem_of_here. }
  eexists _, _. split; [reflexivity|]. split; [reflexivity|].
  split; [reflexivity|]. split; [reflexivity|].
  exact (proj1 (proj2 (pegOK_kept env env Hok Hok))
               pg (Card 3 4 Hearts) _ _ eq_refl Hleg eq_refl eq_refl).
Defined.

Lemma scoresGrow_refl (st : Hook.state) : scoresGrow st st.
Proof. intros H. split; [exact H|]. intros w. lia. Qed.

Lemma scoresGrow_trans (a b c : Hook.state) :
  scoresGrow a b -> scoresGrow b c -> scoresGrow a c.
Proof.
  intros Hab Hbc Ha. destruct (Hab Ha) as [Hb Hle1]. destruct (Hbc Hb) as [Hc Hle2].
  split; [exact Hc|]. intros w. specialize (Hle1 w). specialize (Hle2 w). lia.
Qed.

Lemma scoresGrow_addScore (env st : Hook.state) (who : player) (delta : Z) :
  scoresGrow st (Hook.addScore env who delta st).
Proof.
  intros H. split; [by apply addScore_within120|].
  intros w. by apply addScore_mono.
Qed.

Lemma scoresGrow_same (st st' : Hook.state) :
  Hook.scores st' = Hook.scores st -> scoresGrow st st'.
Proof.
  intros E H. split; [intros w; rewrite E; apply H|]. intros w. rewrite E. lia.
Qed.

Lemma scoresGrow_show (env st st' : Hook.state) (finalPeg : PegState) :
  Hook.endPeggingAndScoreHands env finalPeg st = Some st' -> scoresGrow st st'.
Proof.
  unfold Hook.endPeggingAndScoreHands. intros H.
  apply bind_Some in H as (strt & _ & H). apply bind_Some in H as (a & _ & H).
  apply bind_Some in H as (b & _ & H). apply bind_Some in H as (c & _ & H).
  injection H as <-.
  do 3 (eapply scoresGrow_trans; [|apply scoresGrow_addScore]).
  match goal with
  | |- scoresGrow _ (Hook.setPhase _ ?x) =>
      apply (scoresGrow_trans _ x); [|by apply scoresGrow_same]
  end.
  destruct (_ && _); [apply scoresGrow_addScore|apply scoresGrow_refl].
Qed.

(** X24. No handler of the round ever lowers a score or lets one pass 120. *)
Theorem scores_never_drop (env st : Round.table) :
  (forall st', Round.deal env st = Some st' ->
               scoresGrow (Round.hook st) (Round.hook st'))
  /\ (forall st', Round.cutStarter env st = Some st' ->
                  scoresGrow (Round.hook st) (Round.hook st'))
  /\ (forall c st', Round.playPegCard env c st = Some st' ->
                    scoresGrow (Round.hook st) (Round.hook st'))
  /\ (forall who, scoresGrow (Round.hook st) (Round.hook (Round.declareGo env who st).1))
  /\ scoresGrow (Round.hook st) (Round.hook (Round.goTimeout env st).1).
Proof.
  split; [|split; [|split; [|split]]].
  - intros st' Hd. destruct (Nat.lt_ge_cases (length (Round.deck env)) 12) as [Hlt|Hge].
    + rewrite (proj1 (deal_cards_aux env st) Hlt) in Hd. discriminate.
    + destruct (proj2 (deal_cards_aux env st) Hge) as (st2 & E & _ & _ & _ & _ & _ & _ & Hs).
      rewrite E in Hd. injection Hd as <-. by apply scoresGrow_same.
  - intros st'. unfold Round.cutStarter.
    destruct (Round.pop (Round.deck env)) as [[cut d]|]; [|discriminate].
    cbn -[Hook.addScore]. intros [= <-]. cbn -[Hook.addScore].
    match goal with
    | |- scoresGrow _ (Hook.setPhase _ ?x) =>
        apply (scoresGrow_trans _ x); [|by apply scoresGrow_same]
    end.
    destruct (r cut =? 11).
    + eapply scoresGrow_trans; [|apply scoresGrow_addScore]. by apply scoresGrow_same.
    + by apply scoresGrow_same.
  - intros c st'. unfold Round.playPegCard.
    destruct (Hook.gameOver (Round.hook env)); [intros [= <-]; apply scoresGrow_refl|].
    destruct (Round.peg env) as [pg|]; [|intros [= <-]; apply scoresGrow_refl].
    set (s1 := applyPlay pg c (next pg)).
    set (h1 := if default 0 (points s1) =? 0 then Round.hook st
               else Hook.addScore (Round.hook env) (next pg) (default 0 (points s1))
                                  (Round.hook st)).
    assert (H1 : scoresGrow (Round.hook st) h1).
    { unfold h1. destruct (_ =? 0); [apply scoresGrow_refl|apply scoresGrow_addScore]. }
    destruct (default false (thirtyOne s1)); [by intros [= <-]|].
    destruct (_ && _); [|by intros [= <-]].
    destruct (Hook.endPeggingAndScoreHands _ _ _) as [h2|] eqn:E; [|discriminate].
    simpl. intros [= <-]. simpl.
    eapply scoresGrow_trans; [exact H1|]. by eapply scoresGrow_show.
  - intros who. unfold Round.declareGo.
    destruct (Hook.gameOver (Round.hook env)); [apply scoresGrow_refl|].
    destruct (Round.peg env) as [pg|]; [|apply scoresGrow_refl].
    destruct who; case_bool_decide; apply scoresGrow_refl.
  - unfold Round.goTimeout. destruct (Round.peg st) as [ps|]; [|apply scoresGrow_refl].
    destruct (_ && _); [apply scoresGrow_addScore|apply scoresGrow_refl].
Qed.

Lemma scores_never_drop_witness :
  let pg := mkPeg [Card 0 13 Clubs; Card 1 12 Hearts] 20
                  [Card 2 11 Spades; Card 3 4 Hearts] [Card 4 1 Clubs]
                  [] (Some (Card 12 4 Hearts)) P false false None None in
  let env := Round.mkTable showEnv (Some pg) [] in
  exists st',
    Round.playPegCard env (Card 2 11 Spades) env = Some st'
    /\ within120 (Round.hook st')
    /\ 118 <= Hook.get P (Hook.scores (Round.hook st'))
    /\ 100 <= Hook.get AI (Hook.scores (Round.hook st'))
    /\ Hook.get P (Hook.scores (Round.hook st')) = 120.
Proof.
  intros pg env.
  pose proof (proj1 (proj2 (proj2 (scores_never_drop env env))) (Card 2 11 Spades)) as H.
  destruct (Round.playPegCard env (Card 2 11 Spades) env) as [st'|] eqn:E;
    [|vm_compute in E; discriminate].
  exists st'. split; [reflexivity|].
  destruct (H st' eq_refl) as [Hw Hle].
  { intros w. destruct w; simpl; lia. }
  split; [exact Hw|]. split; [exact (Hle P)|]. split; [exact (Hle AI)|].
  vm_compute in E. injection E as <-. reflexivity.
Defined.

(** * The greedy choices of a playout *)

Lemma choosePlayP_best (tot : Z) (stk : list card) (l : list card) :
  forall b0 p0 b p,
    foldl (fun '(best, bestPts) c =>
             let pts := immediatePts tot stk c in
             if bestPts <? pts then (Some c, pts) else (best, bestPts))
          (b0, p0) l = (b, p) ->
    p0 <= p /\ forall x, x ∈ l -> immediatePts tot stk x <= p.
Proof.
  induction l as [|y l IH]; intros b0 p0 b p; simpl.
  - intros [= <- <-]. split; [lia|]. intros x Hx. by apply elem_of_nil in Hx.
  - destruct (p0 <? immediatePts tot stk y) eqn:E; intros Hf; apply IH in Hf;
      destruct Hf as [Hle Hall];
      [apply Z.ltb_lt in E|apply Z.ltb_ge in E];
      (split; [lia|]); intros x Hx; apply elem_of_cons in Hx;
      destruct Hx as [->|Hx]; try lia; by apply Hall.
Qed.

Lemma choosePlayAI_best (tot : Z) (stk : list card) (l : list card) :
  forall b0 p0 t0 b p t,
    foldl (fun '(best, bestPts, bestTotal) c =>
             let t2 := tot + cardValue15 (r c) in
             let pts := immediatePts tot stk c in
             if (bestPts <? pts) || ((pts =? bestPts) && (bestTotal <? t2))
             then (Some c, pts, t2) else (best, bestPts, bestTotal))
          (b0, p0, t0) l = (b, p, t) ->
    (p0 < p \/ (p0 = p /\ t0 <= t))
    /\ forall x, x ∈ l ->
         immediatePts tot stk x < p
         \/ (immediatePts tot stk x = p /\ tot + cardValue15 (r x) <= t).
Proof.
  induction l as [|y l IH]; intros b0 p0 t0 b p t; simpl.
  - intros [= <- <- <-]. split; [lia|]. intros x Hx. by apply elem_of_nil in Hx.
  - destruct ((p0 <? immediatePts tot stk y)
              || ((immediatePts tot stk y =? p0) && (t0 <? tot + cardValue15 (r y))))
      eqn:E; intros Hf; apply IH in Hf; destruct Hf as [Hle Hall].
    + apply orb_true_iff in E.
      rewrite andb_true_iff, Z.eqb_eq, !Z.ltb_lt in E.
      split; [lia|]. intros x Hx. apply elem_of_cons in Hx.
      destruct Hx as [->|Hx]; [lia|by apply Hall].
    + apply orb_false_iff in E. destruct E as [E1 E2].
      apply Z.ltb_ge in E1. apply andb_false_iff in E2.
      rewrite Z.eqb_neq, Z.ltb_ge in E2.
      split; [lia|]. intros x Hx. apply elem_of_cons in Hx.
      destruct Hx as [->|Hx]; [lia|by apply Hall].
Qed.

Lemma cardValue15_min (rk : Z) : cardValue15 rk = Z.min 10 rk.
Proof.
  unfold cardValue15.
  destruct (10 <? rk) eqn:E; [apply Z.ltb_lt in E|apply Z.ltb_ge in E]; lia.
Qed.

Lemma choosePlayAI_total (tot : Z) (stk : list card) (l : list card) :
  forall b0 p0 t0 b p t,
    foldl (fun '(best, bestPts, bestTotal) c =>
             let t2 := tot + cardValue15 (r c) in
             let pts := immediatePts tot stk c in
             if (bestPts <? pts) || ((pts =? bestPts) && (bestTotal <? t2))
             then (Some c, pts, t2) else (best, bestPts, bestTotal))
          (b0, p0, t0) l = (b, p, t) ->
    (b = b0 /\ t = t0) \/ (exists c, b = Some c /\ t = tot + cardValue15 (r c)).
Proof.
  induction l as [|x l IH]; intros b0 p0 t0 b p t; simpl.
  - intros [= <- <- <-]. by left.
  - destruct ((p0 <? immediatePts tot stk x)
              || ((immediatePts tot stk x =? p0) && (t0 <? tot + cardValue15 (r x))));
      intros Hf; apply IH in Hf.
    + destruct Hf as [[-> ->]|(c & -> & ->)]; right; eauto.
    + exact Hf.
Qed.

(** X27. In a playout both sides play greedily.  The card chosen is a legal
    one whose immediate points no other legal card beats.  The simulated AI
    also records the total its card leads to, the old total plus the card's
    value (its rank, at most 10), and among the cards of most points it
    takes one that leads to the highest total. *)
Theorem greedy_choices (tot : Z) (stk : list card) (legal : list card) :
  (forall c p, choosePlayP tot stk legal = (Some c, p) ->
     c ∈ legal /\ p = immediatePts tot stk c
     /\ forall x, x ∈ legal -> immediatePts tot stk x <= p)
  /\ (forall c p t, choosePlayAI tot stk legal = (Some c, p, t) ->
       c ∈ legal /\ p = immediatePts tot stk c
       /\ t = tot + Z.min 10 (r c)
       /\ forall x, x ∈ legal ->
            immediatePts tot stk x < immediatePts tot stk c
            \/ (immediatePts tot stk x = immediatePts tot stk c
                /\ tot + Z.min 10 (r x) <= tot + Z.min 10 (r c))).
Proof.
  split.
  - intros c p H. destruct (choosePlayP_Some _ _ _ _ _ H) as [Hc Hp].
    split; [exact Hc|]. split; [exact Hp|]. by apply choosePlayP_best in H as [_ ?].
  - intros c p t H. destruct (choosePlayAI_Some _ _ _ _ _ _ H) as [Hc Hp].
    assert (Ht : t = tot + Z.min 10 (r c)).
    { pose proof H as H'. apply choosePlayAI_total in H'.
      destruct H' as [[? _]|(c' & [= <-] & ->)]; [discriminate|].
      by rewrite cardValue15_min. }
    split; [exact Hc|]. split; [exact Hp|]. split; [exact Ht|].
    apply choosePlayAI_best in H as [_ Hall].
    intros x Hx. specialize (Hall x Hx). rewrite cardValue15_min in Hall. lia.
Qed.

Lemma greedy_choices_witness :
  let stk := [Card 9 10 Clubs] in
  let legal := [Card 0 4 Clubs; Card 1 5 Hearts; Card 2 10 Spades] in
  choosePlayAI 10 stk legal = (Some (Card 2 10 Spades), 2, 20)
  /\ 20 = 10 + Z.min 10 (r (Card 2 10 Spades))
  /\ (immediatePts 10 stk (Card 1 5 Hearts) < immediatePts 10 stk (Card 2 10 Spades)
      \/ (immediatePts 10 stk (Card 1 5 Hearts) = immediatePts 10 stk (Card 2 10 Spades)
          /\ 10 + Z.min 10 (r (Card 1 5 Hearts))
             <= 10 + Z.min 10 (r (Card 2 10 Spades)))).
Proof.
  intros stk legal. split; [reflexivity|].
  destruct (proj2 (greedy_choices 10 stk legal) (Card 2 10 Spades) 2 20 eq_refl)
    as (_ & _ & Ht & Hall).
  split; [exact Ht|]. apply Hall. apply list_elem_of_further, list_elem_of_here.
Defined.

(** * The board *)

Lemma yForSeg_cases (cols i : Z) :
  Board.yForSeg cols i = 28 \/ Board.yForSeg cols i = 72 \/ Board.yForSeg cols i = 116.
Proof.
  unfold Board.yForSeg, Board.segFor.
  destruct (i <? cols); [by left|]. destruct (i <? cols * 2); [by right; right|].
  right. by left.
Qed.

Lemma xFor_form (cols i : Z) : exists c, Board.xFor cols i = 24 + c * 18.
Proof. by eexists. Qed.

Lemma peg_on_hole (i : Z) :
  Board.hole (Board.xFor 40 (Board.pegIndex i)) (Board.yForSeg 40 (Board.pegIndex i)).
Proof.
  unfold Board.hole, Board.xFor, Board.yForSeg, Board.colInSeg,
    Board.segFor, Board.pegIndex, Board.yTop, Board.yBot, Board.yMid,
    Board.topY, Board.rowGap, Board.left, Board.gapX.
  set (k := Z.max 0 (Z.min 120 i)). assert (Hk : 0 <= k <= 120) by lia.
  clearbody k.
  destruct (k <? 40) eqn:E1; [apply Z.ltb_lt in E1|apply Z.ltb_ge in E1]; simpl.
  - exists k. rewrite Z.min_l by lia. split; [reflexivity|]. left. lia.
  - destruct (k <? 40 * 2) eqn:E2; [apply Z.ltb_lt in E2|apply Z.ltb_ge in E2]; simpl.
    + exists (40 - 1 - (k - 40)). rewrite Z.min_l by lia.
      split; [reflexivity|]. right. left. lia.
    + exists (k - 40 * 2). rewrite Z.min_l by lia.
      split; [reflexivity|]. right. right. lia.
Qed.

(** X29. Where the pegs are drawn.  The peg of any score is the circle whose
    centre is a hole of the board moved by the peg's offsets: [xShift]
    across and [dy] down.  With the same offsets, two different scores from
    0 to 120 give different centres.  The four pegs of the board (the AI's
    trail and lead pegs 7 above their holes, the player's 7 below, the trail
    pegs 3 to the left) have four different centres whatever the scores, so
    no peg hides another one completely. *)
Theorem board_peg_centres :
  (forall i dy xShift, exists x y,
      Board.hole x y /\ Board.peg i dy xShift = (x + xShift, y + dy))
  /\ (forall i j dy xShift, 0 <= i <= 120 -> 0 <= j <= 120 ->
        Board.peg i dy xShift = Board.peg j dy xShift -> i = j)
  /\ (forall sc prev, exists hat hal hpt hpl,
        Board.hole hat.1 hat.2 /\ Board.hole hal.1 hal.2
        /\ Board.hole hpt.1 hpt.2 /\ Board.hole hpl.1 hpl.2
        /\ Board.pegs sc prev
           = [ (hat.1 - 3, hat.2 - 7); (hal.1, hal.2 - 7);
               (hpt.1 - 3, hpt.2 + 7); (hpl.1, hpl.2 + 7) ]
        /\ NoDup (Board.pegs sc prev)).
Proof.
  split; [|split].
  - intros i dy xShift. eexists _, _. split; [apply (peg_on_hole i)|reflexivity].
  - intros i j dy xShift Hi Hj. unfold Board.peg.
    assert (Ei : Board.pegIndex i = i) by (unfold Board.pegIndex; lia).
    assert (Ej : Board.pegIndex j = j) by (unfold Board.pegIndex; lia).
    rewrite Ei, Ej. clear Ei Ej.
    intros [= Hx Hy]. revert Hx Hy.
    unfold Board.xFor, Board.yForSeg, Board.colInSeg,
      Board.segFor, Board.yTop, Board.yBot, Board.yMid,
      Board.topY, Board.rowGap, Board.left, Board.gapX.
    destruct (i <? 40) eqn:Ei1; destruct (j <? 40) eqn:Ej1;
      destruct (i <? 40 * 2) eqn:Ei2; destruct (j <? 40 * 2) eqn:Ej2; simpl;
      rewrite ?Z.ltb_lt, ?Z.ltb_ge in *; lia.
  - intros sc prev.
    exists (Board.xFor 40 (Board.pegIndex (Hook.get AI prev)),
            Board.yForSeg 40 (Board.pegIndex (Hook.get AI prev))),
           (Board.xFor 40 (Board.pegIndex (Hook.get AI sc)),
            Board.yForSeg 40 (Board.pegIndex (Hook.get AI sc))),
           (Board.xFor 40 (Board.pegIndex (Hook.get P prev)),
            Board.yForSeg 40 (Board.pegIndex (Hook.get P prev))),
           (Board.xFor 40 (Board.pegIndex (Hook.get P sc)),
            Board.yForSeg 40 (Board.pegIndex (Hook.get P sc))).
    do 4 (split; [apply peg_on_hole|]).
    unfold Board.pegs, Board.peg, Board.TRAIL_SHIFT. cbn [fst snd].
    split; [by rewrite !Z.add_0_r|].
    destruct (xFor_form 40 (Board.pegIndex (Hook.get AI prev))) as [c1 ->].
    destruct (xFor_form 40 (Board.pegIndex (Hook.get AI sc))) as [c2 ->].
    destruct (xFor_form 40 (Board.pegIndex (Hook.get P prev))) as [c3 ->].
    destruct (xFor_form 40 (Board.pegIndex (Hook.get P sc))) as [c4 ->].
    pose proof (yForSeg_cases 40 (Board.pegIndex (Hook.get AI prev))) as Y1.
    pose proof (yForSeg_cases 40 (Board.pegIndex (Hook.get AI sc))) as Y2.
    pose proof (yForSeg_cases 40 (Board.pegIndex (Hook.get P prev))) as Y3.
    pose proof (yForSeg_cases 40 (Board.pegIndex (Hook.get P sc))) as Y4.
    revert Y1 Y2 Y3 Y4.
    generalize (Board.yForSeg 40 (Board.pegIndex (Hook.get AI prev))),
               (Board.yForSeg 40 (Board.pegIndex (Hook.get AI sc))),
               (Board.yForSeg 40 (Board.pegIndex (Hook.get P prev))),
               (Board.yForSeg 40 (Board.pegIndex (Hook.get P sc))).
    intros y1 y2 y3 y4 Y1 Y2 Y3 Y4.
    repeat (apply NoDup_cons; split;
            [intros Hin; repeat (apply elem_of_cons in Hin as [Hin|Hin];
                                 [injection Hin as Hx Hy; lia|]);
             by apply elem_of_nil in Hin|]).
    apply NoDup_nil_2.
Qed.

(** * Card labels *)

Lemma NoDup_fmap_inj_on {A B} (f : A -> B) (l : list A) (x y : A) :
  NoDup (f <$> l) -> x ∈ l -> y ∈ l -> f x = f y -> x = y.
Proof.
  induction l as [|a l IH]; intros Hnd Hx Hy Hf; [by apply elem_of_nil in Hx|].
  rewrite fmap_cons in Hnd. apply NoDup_cons in Hnd. destruct Hnd as [Ha Hnd].
  apply elem_of_cons in Hx. apply elem_of_cons in Hy.
  destruct Hx as [->|Hx], Hy as [->|Hy].
  - reflexivity.
  - exfalso. apply Ha. rewrite Hf. by apply list_elem_of_fmap_2.
  - exfalso. apply Ha. rewrite <- Hf. by apply list_elem_of_fmap_2.
  - by apply IH.
Qed.

(** X30. The label of a card tells its face: two cards of ranks 1 to 13 with the
    same label have the same rank and the same suit. *)
Theorem cardToString_face (c1 c2 : card) :
  1 <= r c1 <= 13 -> 1 <= r c2 <= 13 ->
  cardToString c1 = cardToString c2 -> face c1 = face c2.
Proof.
  intros H1 H2 Hs.
  pose (lab := fun f : Z * suit => rankLabel f.1 +:+ suitSymbol f.2).
  assert (Hnd : NoDup (lab <$> (face <$> makeDeck 0))).
  { apply (bool_decide_unpack _). vm_compute. exact I. }
  apply (NoDup_fmap_inj_on lab (face <$> makeDeck 0)); [exact Hnd| | |exact Hs].
  - destruct c1 as [o rk su].
    apply (proj2 (proj2 (proj2 (proj2 (makeDeck_complete_aux 0)))) rk su H1).
  - destruct c2 as [o rk su].
    apply (proj2 (proj2 (proj2 (proj2 (makeDeck_complete_aux 0)))) rk su H2).
Qed.

Lemma cardToString_face_witness :
  face (Card 0 10 Hearts) = face (Card 7 10 Hearts).
Proof.
  apply (cardToString_face (Card 0 10 Hearts) (Card 7 10 Hearts));
    [simpl; lia|simpl; lia|reflexivity].
Defined.

Example cardToString_samples :
  cardToString (Card 0 10 Hearts) = "10♥" /\ cardToString (Card 1 1 Spades) = "A♠"
  /\ cardToString (Card 2 12 Clubs) = "Q♣".
Proof. repeat split; reflexivity. Qed.

(** * The show *)

(** X25. The show, run from a render that has not seen the game over and with no
    last-card point pending: the non-dealer is credited the points of their
    hand, the dealer those of their hand and of the crib, each total clamped
    at 120. *)
Theorem show_scores (env st : Hook.state) (finalPeg : PegState) (strt : card)
    (a b c : Z) :
  Hook.gameOver env = false -> Hook.starter env = Some strt ->
  handPoints (match Hook.dealer env with AI => Hook.pHand env | P => Hook.aiHand env end)
             strt false = Some a ->
  handPoints (match Hook.dealer env with P => Hook.pHand env | AI => Hook.aiHand env end)
             strt false = Some b ->
  handPoints (Hook.crib env) strt true = Some c ->
  (pPassed finalPeg || aiPassed finalPeg = false) ->
  within120 st ->
  exists st',
    Hook.endPeggingAndScoreHands env finalPeg st = Some st'
    /\ Hook.phase st' = Hook.phaseShow
    /\ Hook.get (other (Hook.dealer env)) (Hook.scores st')
       = Z.min 120 (Hook.get (other (Hook.dealer env)) (Hook.scores st) + a)
    /\ Hook.get (Hook.dealer env) (Hook.scores st')
       = Z.min 120 (Hook.get (Hook.dealer env) (Hook.scores st) + b + c).
Proof.
  intros Hg Hs Ha Hb Hc Hpass H120.
  assert (Ha0 : 0 <= a).
  { destruct (handPoints_nonneg_aux
      (match Hook.dealer env with AI => Hook.pHand env | P => Hook.aiHand env end)
      strt false) as (v & Hv & Hv0). rewrite Ha in Hv. by injection Hv as <-. }
  assert (Hb0 : 0 <= b).
  { destruct (handPoints_nonneg_aux
      (match Hook.dealer env with P => Hook.pHand env | AI => Hook.aiHand env end)
      strt false) as (v & Hv & Hv0). rewrite Hb in Hv. by injection Hv as <-. }
  assert (Hc0 : 0 <= c).
  { destruct (handPoints_nonneg_aux (Hook.crib env) strt true) as (v & Hv & Hv0).
    rewrite Hc in Hv. by injection Hv as <-. }
  unfold Hook.endPeggingAndScoreHands. rewrite Hs. cbn [mbind option_bind].
  rewrite Hpass, andb_false_r.
  assert (Hpone : match match Hook.dealer env with AI => P | P => AI end with
                  | P => Hook.pHand env | AI => Hook.aiHand env end
                  = match Hook.dealer env with AI => Hook.pHand env | P => Hook.aiHand env end)
    by (by destruct (Hook.dealer env)).
  rewrite Hpone, Ha. cbn [mbind option_bind]. rewrite Hb. cbn [mbind option_bind].
  rewrite Hc. cbn [mbind option_bind].
  eexists. split; [reflexivity|].
  assert (Hother : match Hook.dealer env with AI => P | P => AI end = other (Hook.dealer env))
    by (by destruct (Hook.dealer env)).
  rewrite Hother.
  pose proof (H120 (Hook.dealer env)) as Hd. pose proof (H120 (other (Hook.dealer env))) as Ho.
  assert (Hne : other (Hook.dealer env) <> Hook.dealer env) by (by destruct (Hook.dealer env)).
  split.
  { repeat match goal with
           | |- Hook.phase (Hook.addScore ?e ?w ?dl ?s0) = _ =>
               destruct (addScore_frame e s0 w dl) as (_ & _ & _ & _ & _ & ->)
           end. reflexivity. }
  rewrite !addScore_scores. cbn [Hook.setPhase Hook.scores].
  split.
  - rewrite (decide_False (P := other (Hook.dealer env) = Hook.dealer env /\ _)) by tauto.
    rewrite (decide_False (P := other (Hook.dealer env) = Hook.dealer env /\ _)) by tauto.
    case_decide as Hcase; [lia|]. assert (~ 0 < a) by tauto. lia.
  - rewrite (decide_False (P := Hook.dealer env = other (Hook.dealer env) /\ _))
      by (intros [? _]; congruence).
    case_decide as Hcase1; case_decide as Hcase2;
      try (assert (~ 0 < c) by tauto); try (assert (~ 0 < b) by tauto); lia.
Qed.

Lemma show_scores_witness :
  exists st', Hook.endPeggingAndScoreHands showEnv showPeg showEnv = Some st'
    /\ Hook.get AI (Hook.scores st') = 110.
Proof.
  destruct (show_scores showEnv showEnv showPeg (Card 12 4 Hearts) 7 4 6)
    as (st' & H1 & _ & _ & H2); try reflexivity.
  - intros w. destruct w; simpl; lia.
  - exists st'. split; [exact H1|exact H2].
Defined.

(** X26. The award that brings a score to 120 or more ends the game in the same
    update: the score is set to exactly 120, the game-over flag is raised and
    the scorer is the winner. *)
Theorem addScore_reaching_120 (env st : Hook.state) (who : player) (delta : Z) :
  Hook.gameOver env = false -> 0 < delta ->
  120 <= Hook.get who (Hook.scores st) + delta ->
  Hook.gameOver (Hook.addScore env who delta st) = true
  /\ Hook.winner (Hook.addScore env who delta st) = Some who
  /\ Hook.get who (Hook.scores (Hook.addScore env who delta st)) = 120.
Proof. exact (addScore_triggers_gameOver env st who delta). Qed.

Lemma addScore_reaching_120_witness :
  Hook.gameOver (Hook.addScore showEnv P 7 showEnv) = true.
Proof.
  refine (proj1 (addScore_reaching_120 showEnv showEnv P 7 _ _ _));
    [reflexivity|lia|simpl; lia].
Defined.

(** X28. Every playout of the pegging search ends: the [while (true)] loop breaks
    within [2 * (cards held) + 3] iterations, whatever the state, the
    candidate card and the sampled opponent hands. *)
Theorem rollout_terminates (state : PegState) (play : card)
    (samples : list (list card)) :
  (forall smp, exists v, rolloutOnce state play smp = Some v)
  /\ exists total, rolloutTotal state play samples = Some total.
Proof.
  split; [intros smp; apply rolloutOnce_total|apply rolloutTotal_total].
Qed.

(** * Runs *)

Lemma runSpan_app (l : list Z) :
  forall x run rest, runSpan x l = (run, rest) -> l = run ++ rest.
Proof.
  induction l as [|y l IH]; intros x run rest; simpl.
  - by intros [= <- <-].
  - destruct (y =? x + 1); [|by intros [= <- <-]].
    destruct (runSpan y l) as [run1 rest1] eqn:E. intros [= <- <-].
    simpl. f_equal. by apply (IH y).
Qed.

Lemma runSpan_first (l : list Z) (x y : Z) (run rest : list Z) :
  runSpan x l = (y :: run, rest) ->
  y = x + 1 /\ exists l', l = y :: l' /\ runSpan y l' = (run, rest).
Proof.
  destruct l as [|z l]; simpl; [discriminate|].
  destruct (z =? x + 1) eqn:E; [|discriminate]. apply Z.eqb_eq in E.
  destruct (runSpan z l) as [run1 rest1] eqn:E1. intros [= -> -> ->].
  split; [exact E|]. by exists l.
Qed.

Lemma uniqueRanks_present (cards : list card) (x : Z) :
  x ∈ uniqueRanks (byRank cards) -> 0 < occ x cards.
Proof.
  unfold uniqueRanks. rewrite merge_sort_Permutation, list_elem_of_fmap.
  intros ([k v] & -> & Hkv). apply elem_of_map_to_list in Hkv. simpl.
  rewrite byRank_lookup in Hkv. pose proof (occ_nonneg k cards).
  case_decide; [discriminate|lia].
Qed.

Lemma countRunsLoop_no_three (cards : list card) (fuel : nat) :
  (forall k, ~ (0 < occ k cards /\ 0 < occ (k + 1) cards /\ 0 < occ (k + 2) cards)) ->
  forall unique bestLen,
    (forall x, x ∈ unique -> 0 < occ x cards) ->
    (length unique < fuel)%nat ->
    countRunsLoop fuel (byRank cards) unique bestLen 0 = Some 0.
Proof.
  intros Hno. induction fuel as [|fuel IH]; intros unique bestLen Hin Hlen; [lia|].
  destruct unique as [|x l]; [reflexivity|]. simpl in Hlen.
  cbn [countRunsLoop].
  destruct (runSpan x l) as [run rest] eqn:E.
  pose proof (runSpan_app _ _ _ _ E) as Hl.
  assert (Hrest : forall z, z ∈ rest -> 0 < occ z cards).
  { intros z Hz. apply Hin. apply list_elem_of_further. rewrite Hl.
    apply elem_of_app. by right. }
  assert (Hlr : (length rest < fuel)%nat).
  { rewrite Hl, length_app in Hlen. lia. }
  destruct (3 <=? Z.of_nat (length (x :: run))) eqn:E3; [|by apply IH].
  exfalso. apply Z.leb_le in E3. simpl length in E3.
  destruct run as [|y [|z run]]; [simpl in E3; lia|simpl in E3; lia|].
  apply runSpan_first in E. destruct E as (-> & l' & -> & E').
  apply runSpan_first in E'. destruct E' as (-> & l'' & -> & _).
  apply (Hno x). split; [apply Hin, list_elem_of_here|]. split.
  - apply Hin. apply list_elem_of_further, list_elem_of_here.
  - replace (x + 2) with (x + 1 + 1) by lia.
    apply Hin. do 2 apply list_elem_of_further. apply list_elem_of_here.
Qed.

(** X5. Without three cards of consecutive ranks there are no run points. *)
Theorem countRuns_no_three (cards : list card) :
  (forall k, ~ (0 < occ k cards /\ 0 < occ (k + 1) cards /\ 0 < occ (k + 2) cards)) ->
  countRuns cards = Some 0.
Proof.
  intros Hno. unfold countRuns. apply countRunsLoop_no_three; [exact Hno| |lia].
  apply uniqueRanks_present.
Qed.

Lemma countRuns_no_three_witness :
  countRuns [Card 0 2 Clubs; Card 1 3 Hearts; Card 2 5 Spades; Card 3 6 Clubs;
             Card 4 13 Hearts] = Some 0.
Proof.
  apply countRuns_no_three. intros k (H1 & H2 & H3).
  assert (Hk : k = 2 \/ k = 3 \/ k = 5 \/ k = 6 \/ k = 13).
  { clear H2 H3. unfold occ in H1. rewrite !filter_cons, filter_nil in H1.
    repeat case_decide; simpl in *; lia. }
  destruct Hk as [->|[->|[->|[->| ->]]]]; vm_compute in H1, H2, H3; discriminate.
Defined.
